(** * A Redis-to-socket.io bridge for inventory events

    Shallow embedding of [server.js]: the handler of Redis pub/sub
    messages (decode, classify by channel, enrich alerts, emit twice) and
    the per-socket room handlers, over a small model of the JavaScript
    values and of the socket.io operations the file calls ([io.emit],
    [io.to(room).emit], [socket.join], [socket.leave]).

    Conventions.
    - A JavaScript string is a Rocq [string]; a character stands for one
      code unit.
    - A JavaScript number is a binary64 [float].
    - An object is the finite map of its own enumerable properties; the
      enumeration order of properties is not modelled.
    - [JSON.parse], a builtin of the runtime, is a parameter of the
      handler.  [Json.parse] is a decoder for JSON text that can be put in
      its place to run the handler on concrete payloads.
    - The clock reading used for a defaulted [timestamp] comes with the
      message as [now]; [on_message_timed] is the handler with the clock
      in the state of the process, consulted where the code consults it. *)

From Stdlib Require Import Ascii ZArith PrimFloat.
From Stdlib.Floats Require Import SpecFloat FloatOps.
From stdpp Require Import base strings gmap sets list pretty.

Set Default Proof Using "Type".
#[local] Set Warnings "-clear-no-such-hyp".

(** ** JavaScript values *)

Module JS.

#[warnings="-register-all"]
Inductive value :=
| VUndefined
| VNull
| VBool (b : bool)
| VNum (n : float)
| VStr (s : string)
| VArr (l : list value)
| VObj (m : gmap string value).

Inductive js_error :=
| SyntaxError (detail : string)
| TypeError (detail : string).

(** [ToBoolean]: the falsy values are [undefined], [null], [false], the
    zeros, [NaN] and the empty string. *)
Definition ToBoolean (v : value) : bool :=
  match v with
  | VUndefined | VNull => false
  | VBool b => b
  | VNum n => negb (PrimFloat.is_zero n || PrimFloat.is_nan n)
  | VStr s => negb (String.eqb s "")
  | VArr _ | VObj _ => true
  end.

(** [a || b], for a right operand without effects. *)
Definition or_else (a b : value) : value := if ToBoolean a then a else b.

(** Array-like values expose their elements under the keys "0", "1", ... *)
Definition indexed (l : list value) : gmap string value :=
  list_to_map (imap (λ i x, (pretty i, x)) l).

Definition chars (s : string) : list value :=
  (λ c, VStr (String c "")) <$> String.list_ascii_of_string s.

(** The own enumerable properties of a value, as [{...v}] copies them. *)
Definition own_enumerable (v : value) : gmap string value :=
  match v with
  | VObj m => m
  | VArr l => indexed l
  | VStr s => indexed (chars s)
  | VUndefined | VNull | VBool _ | VNum _ => ∅
  end.

(** [v.k] for a property name [k] that no builtin prototype defines and
    that is not [length] (all the names read in [server.js] are such):
    the own property if there is one, [undefined] otherwise; reading from
    [null] or [undefined] throws. *)
Definition get (v : value) (k : string) : js_error + value :=
  match v with
  | VUndefined =>
      inl (TypeError ("Cannot read properties of undefined (reading '" +:+ k +:+ "')"))
  | VNull =>
      inl (TypeError ("Cannot read properties of null (reading '" +:+ k +:+ "')"))
  | _ => inr (default VUndefined (own_enumerable v !! k))
  end.

(** [{ ...props, ...src }]: the properties of [src] are written over the
    ones defined before the spread. *)
Definition spread (src : value) (props : gmap string value) : gmap string value :=
  own_enumerable src ∪ props.

(** Every string inside a value: property names and string leaves. *)
Fixpoint strings_of (v : value) : list string :=
  match v with
  | VStr s => [s]
  | VArr l => concat (strings_of <$> l)
  | VObj m => map_fold (λ k inner acc, k :: inner ++ acc) [] (strings_of <$> m)
  | VUndefined | VNull | VBool _ | VNum _ => []
  end.

End JS.
Export JS.

(** ** The process: socket.io registry and observable effects *)

Inductive log_arg :=
| LStr (s : string)
| LVal (v : value)
| LErr (e : js_error).

Inductive target :=
| Broadcast
| ToRoom (room : string).

(** What the process does to the outside: console lines and emissions.
    An emission records the value handed to [emit] and the set of sockets
    the packet is sent to. *)
Inductive effect :=
| ConsoleLog (args : list log_arg)
| ConsoleError (args : list log_arg)
| Emit (to : target) (event : string) (payload : value) (recipients : gset string).

(** [sids] is the adapter's table: the connected sockets and, for each,
    the rooms it is in. *)
Record server := Server {
  sids : gmap string (gset string);
  trace : list effect
}.

(** Computations that read and write the process state and may throw. *)
Definition M (A : Type) : Type := server → (js_error + A) * server.

Definition ret {A} (a : A) : M A := λ s, (inr a, s).

Definition throw {A} (e : js_error) : M A := λ s, (inl e, s).

Definition bind {A B} (c : M A) (k : A → M B) : M B :=
  λ s, match c s with
       | (inr a, s') => k a s'
       | (inl e, s') => (inl e, s')
       end.

(** [try { body } catch (error) { handler error }]: what [body] did before
    throwing stays done. *)
Definition try_catch {A} (body : M A) (handler : js_error → M A) : M A :=
  λ s, match body s with
       | (inr a, s') => (inr a, s')
       | (inl e, s') => handler e s'
       end.

Definition lift {A} (r : js_error + A) : M A :=
  match r with
  | inr a => ret a
  | inl e => throw e
  end.

#[global] Instance M_ret : MRet M := @ret.
#[global] Instance M_bind : MBind M := λ A B k c, bind c k.

(** Property reads are the only pure computations that can throw. *)
#[global] Instance result_bind : MBind (sum js_error) :=
  λ A B k r, match r with
             | inr a => k a
             | inl e => inl e
             end.

Definition perform (e : effect) : M unit :=
  λ s, (inr (), Server (sids s) (trace s ++ [e])).

Definition console_log (args : list log_arg) : M unit := perform (ConsoleLog args).
Definition console_error (args : list log_arg) : M unit := perform (ConsoleError args).

Definition rooms_of (s : server) (id : string) : gset string :=
  default ∅ (sids s !! id).

Definition in_room (s : server) (id room : string) : Prop := room ∈ rooms_of s id.

Definition connected (s : server) (id : string) : Prop := id ∈ dom (sids s).

#[global] Instance in_room_dec s id room : Decision (in_room s id room) :=
  decide (room ∈ rooms_of s id).
#[global] Instance connected_dec s id : Decision (connected s id) :=
  decide (id ∈ dom (sids s)).

Definition members (room : string) (table : gmap string (gset string)) : gset string :=
  dom (filter (λ kv, room ∈ kv.2) table).

(** [io.emit(event, payload)]: one packet to every connected socket. *)
Definition io_emit (event : string) (payload : value) : M unit :=
  λ s, perform (Emit Broadcast event payload (dom (sids s))) s.

(** [io.to(room).emit(event, payload)]: one packet to every socket in [room]. *)
Definition io_to_emit (room event : string) (payload : value) : M unit :=
  λ s, perform (Emit (ToRoom room) event payload (members room (sids s))) s.

(** [socket.join(room)] and [socket.leave(room)] of the socket [id]. *)
Definition socket_join (id room : string) : M unit :=
  λ s, (inr (), Server (<[id := {[room]} ∪ rooms_of s id]> (sids s)) (trace s)).

Definition socket_leave (id room : string) : M unit :=
  λ s, (inr (), Server (alter (λ rs, rs ∖ {[room]}) id (sids s)) (trace s)).

(** A new socket is entered in the table, in the room named by its id. *)
Definition adapter_add (id : string) : M unit :=
  λ s, (inr (), Server (<[id := {[id]}]> (sids s)) (trace s)).

(** A closing socket leaves all its rooms and the table. *)
Definition adapter_del_all (id : string) : M unit :=
  λ s, (inr (), Server (delete id (sids s)) (trace s)).

(** The packets a given socket is sent, oldest first. *)
Definition received (id : string) (t : list effect) : list (string * value) :=
  omap (λ e, match e with
             | Emit _ event payload rcpts =>
                 if decide (id ∈ rcpts) then Some (event, payload) else None
             | _ => None
             end) t.

Definition is_emit (e : effect) : bool :=
  match e with
  | Emit _ _ _ _ => true
  | ConsoleLog _ | ConsoleError _ => false
  end.

(** The emissions of a trace, console lines left out. *)
Definition emissions (t : list effect) : list effect := List.filter is_emit t.

(** ** A decoder for JSON text

    [Json.parse] reads the grammar of ECMA-404 and builds the value
    [JSON.parse] builds: numbers are rounded to the nearest binary64,
    and of two members with the same name the later one stays.  Escapes
    [\uXXXX] above [\u00FF] are outside the characters modelled and are
    refused. *)

Module Json.

Definition code (c : ascii) : Z := Z.of_N (Ascii.N_of_ascii c).

Definition is_ws (c : ascii) : bool :=
  let n := code c in
  (n =? 32)%Z || (n =? 9)%Z || (n =? 10)%Z || (n =? 13)%Z.

Fixpoint skip_ws (s : string) : string :=
  match s with
  | String c rest => if is_ws c then skip_ws rest else s
  | EmptyString => s
  end.

Definition digit (c : ascii) : option Z :=
  let n := code c in
  if (48 <=? n)%Z && (n <=? 57)%Z then Some (n - 48)%Z else None.

Definition hex_digit (c : ascii) : option Z :=
  let n := code c in
  if (48 <=? n)%Z && (n <=? 57)%Z then Some (n - 48)%Z
  else if (97 <=? n)%Z && (n <=? 102)%Z then Some (n - 87)%Z
  else if (65 <=? n)%Z && (n <=? 70)%Z then Some (n - 55)%Z
  else None.

(** A run of decimal digits appended to [acc]; [count] counts them. *)
Fixpoint digits (acc count : Z) (s : string) : Z * Z * string :=
  match s with
  | String c rest =>
      match digit c with
      | Some d => digits (10 * acc + d)%Z (count + 1)%Z rest
      | None => (acc, count, s)
      end
  | EmptyString => (acc, count, s)
  end.

(** The binary64 nearest to [m * 10 ^ e10], ties to even, for a mantissa
    of [nd] decimal digits.  A negative exponent is a division: the
    quotient is taken with 66 bits or more and its inexactness kept in
    the last bit, so that one rounding to 53 bits follows. *)
Definition to_float (neg : bool) (m nd e10 : Z) : float :=
  match m with
  | Zpos p =>
      if (400 <? e10)%Z then (if neg then neg_infinity else infinity)
      else if (e10 <? - (400 + nd))%Z then (if neg then neg_zero else zero)
      else if (0 <=? e10)%Z then
        SF2Prim (binary_round prec emax neg (p * Z.to_pos (10 ^ e10)) 0)
      else
        let d := (10 ^ (- e10))%Z in
        let s := (Z.log2 d + 66)%Z in
        let num := (Zpos p * 2 ^ s)%Z in
        let sticky := if (num mod d =? 0)%Z then 0%Z else 1%Z in
        SF2Prim (binary_round prec emax neg
                   (Z.to_pos (2 * (num / d) + sticky)) (- (s + 1)))
  | _ => if neg then neg_zero else zero
  end.

(** number = [-] int [frac] [exp] *)
Definition number (s : string) : option (float * string) :=
  let '(neg, s1) := match s with
                    | String c rest => if (code c =? 45)%Z then (true, rest) else (false, s)
                    | EmptyString => (false, s)
                    end in
  '(int, s2) ← match s1 with
               | String c rest =>
                   if (code c =? 48)%Z then Some ((0, 1)%Z, rest)
                   else match digits 0 0 s1 with
                        | (_, 0%Z, _) => None
                        | (m, nd, rest') => Some ((m, nd), rest')
                        end
               | EmptyString => None
               end;
  '(frac, s3) ← match s2 with
                | String c rest =>
                    if (code c =? 46)%Z then
                      match digits int.1 0 rest with
                      | (_, 0%Z, _) => None
                      | (m, nf, rest') => Some ((m, nf), rest')
                      end
                    else Some ((int.1, 0%Z), s2)
                | EmptyString => Some ((int.1, 0%Z), s2)
                end;
  '(e, s4) ← match s3 with
             | String c rest =>
                 if (code c =? 101)%Z || (code c =? 69)%Z then
                   let '(eneg, rest1) :=
                     match rest with
                     | String c' rest' =>
                         if (code c' =? 45)%Z then (true, rest')
                         else if (code c' =? 43)%Z then (false, rest')
                         else (false, rest)
                     | EmptyString => (false, rest)
                     end in
                   match digits 0 0 rest1 with
                   | (_, 0%Z, _) => None
                   | (x, _, rest2) => Some (if eneg then (- x)%Z else x, rest2)
                   end
                 else Some (0%Z, s3)
             | EmptyString => Some (0%Z, s3)
             end;
  Some (to_float neg frac.1 (int.2 + frac.2) (e - frac.2), s4).

(** The characters of a string literal after its opening quote. *)
Fixpoint string_body (s : string) : option (string * string) :=
  match s with
  | EmptyString => None
  | String c rest =>
      if (code c =? 34)%Z then Some (EmptyString, rest)
      else if (code c =? 92)%Z then
        match rest with
        | String e rest1 =>
            let plain (c' : ascii) :=
              '(str, r) ← string_body rest1; Some (String c' str, r) in
            let n := code e in
            if (n =? 34)%Z || (n =? 92)%Z || (n =? 47)%Z then plain e
            else if (n =? 98)%Z then plain (Ascii.ascii_of_nat 8)
            else if (n =? 102)%Z then plain (Ascii.ascii_of_nat 12)
            else if (n =? 110)%Z then plain (Ascii.ascii_of_nat 10)
            else if (n =? 114)%Z then plain (Ascii.ascii_of_nat 13)
            else if (n =? 116)%Z then plain (Ascii.ascii_of_nat 9)
            else if (n =? 117)%Z then
              match rest1 with
              | String h1 (String h2 (String h3 (String h4 rest2))) =>
                  a ← hex_digit h1; b ← hex_digit h2;
                  c3 ← hex_digit h3; d ← hex_digit h4;
                  if (a =? 0)%Z && (b =? 0)%Z then
                    '(str, r) ← string_body rest2;
                    Some (String (Ascii.ascii_of_N (Z.to_N (16 * c3 + d))) str, r)
                  else None
              | _ => None
              end
            else None
        | EmptyString => None
        end
      else if (code c <? 32)%Z then None
      else '(str, r) ← string_body rest; Some (String c str, r)
  end.

(** value, the elements of an array after [[] and the members of an
    object after [{]; every call spends one unit of [fuel]. *)
Fixpoint value_ (fuel : nat) (s : string) : option (value * string) :=
  match fuel with
  | O => None
  | S fuel =>
      match skip_ws s with
      | String "n" (String "u" (String "l" (String "l" rest))) => Some (VNull, rest)
      | String "t" (String "r" (String "u" (String "e" rest))) => Some (VBool true, rest)
      | String "f" (String "a" (String "l" (String "s" (String "e" rest)))) =>
          Some (VBool false, rest)
      | String c rest as s' =>
          if (code c =? 34)%Z then
            '(str, r) ← string_body rest; Some (VStr str, r)
          else if (code c =? 91)%Z then
            match skip_ws rest with
            | String "]" r => Some (VArr [], r)
            | _ => '(vs, r) ← elements fuel rest; Some (VArr vs, r)
            end
          else if (code c =? 123)%Z then
            match skip_ws rest with
            | String "}" r => Some (VObj ∅, r)
            | _ => '(kvs, r) ← members fuel rest;
                   Some (VObj (list_to_map (reverse kvs)), r)
            end
          else '(n, r) ← number s'; Some (VNum n, r)
      | EmptyString => None
      end
  end
with elements (fuel : nat) (s : string) : option (list value * string) :=
  match fuel with
  | O => None
  | S fuel =>
      '(v, r) ← value_ fuel s;
      match skip_ws r with
      | String "," r' => '(vs, r'') ← elements fuel r'; Some (v :: vs, r'')
      | String "]" r' => Some ([v], r')
      | _ => None
      end
  end
with members (fuel : nat) (s : string) : option (list (string * value) * string) :=
  match fuel with
  | O => None
  | S fuel =>
      match skip_ws s with
      | String c rest =>
          if (code c =? 34)%Z then
            '(k, r) ← string_body rest;
            match skip_ws r with
            | String ":" r1 =>
                '(v, r2) ← value_ fuel r1;
                match skip_ws r2 with
                | String "," r3 => '(kvs, r4) ← members fuel r3; Some ((k, v) :: kvs, r4)
                | String "}" r3 => Some ([(k, v)], r3)
                | _ => None
                end
            | _ => None
            end
          else None
      | EmptyString => None
      end
  end.

(** The whole text is one value between optional white space. *)
Definition parse (text : string) : js_error + value :=
  let invalid := SyntaxError (text +:+ " is not valid JSON") in
  match value_ (2 * String.length text + 2) text with
  | Some (v, rest) =>
      match skip_ws rest with
      | EmptyString => inr v
      | String _ _ => inl invalid
      end
  | None => inl invalid
  end.

End Json.

(** JSON text is written below with ['] where the text has its double
    quote; [dq] puts the double quotes back. *)
Definition dq (text : string) : string :=
  String.string_of_list_ascii
    ((λ c, if Ascii.eqb c "'" then Ascii.ascii_of_nat 34 else c)
       <$> String.list_ascii_of_string text).

(** ** The alert record in the words of the specification *)

(** The defaults: three constants, the enrichment time, and the two
    counters as the payload has them. *)
Definition default_record (now : string) (payload : gmap string value)
  : gmap string value :=
  {[ "type" := VStr "count_exceeded";
     "message" := VStr "Item count exceeded the limit.";
     "severity" := VStr "warning";
     "timestamp" := VStr now;
     "current_count" := default VUndefined (payload !! "current_count");
     "threshold" := default VUndefined (payload !! "threshold") ]}.

(** [record] is [defaults] overlaid field for field by [payload]. *)
Definition overlaid (record defaults payload : gmap string value) : Prop :=
  ∀ k, record !! k = match payload !! k with
                     | Some v => Some v
                     | None => defaults !! k
                     end.

(** Whether [needle] occurs in [hay]. *)
Fixpoint occurs (needle hay : string) : bool :=
  String.prefix needle hay ||
  match hay with
  | String _ rest => occurs needle rest
  | EmptyString => false
  end.

(** The strings a console line prints (of an error, its message), and
    whether some line of a trace prints [text] somewhere. *)
Definition printed (a : log_arg) : list string :=
  match a with
  | LStr s => [s]
  | LVal v => strings_of v
  | LErr (SyntaxError detail) | LErr (TypeError detail) => [detail]
  end.

Definition console_text (e : effect) : list string :=
  match e with
  | ConsoleLog args | ConsoleError args => concat (printed <$> args)
  | Emit _ _ _ _ => []
  end.

Definition logs (text : string) (t : list effect) : bool :=
  existsb (λ e, existsb (occurs text) (console_text e)) t.

(** ** Sample data *)

(** Two connected sockets: ["alice"] has joined both rooms, ["bob"] none. *)
Definition two_clients : server :=
  Server {[ "alice" := {[ "alice"; "inventory-updates"; "inventory-alerts" ]};
            "bob" := {[ "bob" ]} ]} [].

Definition noon : string := "2024-05-01T12:00:00.000Z".

Definition stock_text : string := dq "{'sku': 'A1', 'qty': 3}".

Definition stock : gmap string value :=
  {[ "sku" := VStr "A1"; "qty" := VNum 3%float ]}.

Definition counts_text : string := dq "{'current_count': 150, 'threshold': 100}".

Definition counts : gmap string value :=
  {[ "current_count" := VNum 150%float; "threshold" := VNum 100%float ]}.

Definition custom_text : string := dq "{'severity': 'critical', 'type': 'custom'}".

Definition custom : gmap string value :=
  {[ "severity" := VStr "critical"; "type" := VStr "custom" ]}.

Definition blank_severity_text : string := dq "{'severity': ''}".

Definition blank_severity : gmap string value := {[ "severity" := VStr "" ]}.

(** ** server.js: the address of the machine *)

(** An entry of [os.networkInterfaces()], with the fields that
    [getLocalIP] reads; the interfaces come as the list of their names,
    in the order of [Object.keys], each with its entries. *)
Record net_info := NetInfo {
  family : value;
  internal : bool;
  address : string
}.

(** [v === text] for a string literal [text]. *)
Definition is_string (v : value) (text : string) : bool :=
  match v with
  | VStr s => String.eqb s text
  | _ => false
  end.

(** The test of line 18. *)
Definition external_ipv4 (net : net_info) : bool :=
  is_string (family net) "IPv4" && negb (internal net).

(** [getLocalIP], lines 11-24: the two loops push onto [results], and
    [results[0] || 'localhost'] is returned. *)
Definition getLocalIP (nets : list (string * list net_info)) : string :=
  let results :=
    foldl (λ results entry,
             foldl (λ results net,
                      if external_ipv4 net then results ++ [address net]
                      else results)
                   results entry.2)
          [] nets in
  match results !! 0%nat with
  | Some first => if ToBoolean (VStr first) then first else "localhost"
  | None => "localhost"
  end.

(** The [origin] list of the CORS settings, lines 28-32. *)
Definition cors_origin (nets : list (string * list net_info)) : list string :=
  ["http://localhost:3000";
   "http://127.0.0.1:3000";
   "http://" +:+ getLocalIP nets +:+ ":3000"].

(** All the addresses that pass the test, in the order of the loops. *)
Definition external_addresses (nets : list (string * list net_info)) : list string :=
  flat_map (λ entry, address <$> List.filter external_ipv4 entry.2) nets.

(** A laptop: loopback, then a wireless interface with an IPv6 and an
    IPv4 entry, then a second wired interface. *)
Definition laptop : list (string * list net_info) :=
  [("lo", [NetInfo (VStr "IPv4") true "127.0.0.1";
           NetInfo (VStr "IPv6") true "::1"]);
   ("wlan0", [NetInfo (VStr "IPv6") false "fe80::1c2d";
              NetInfo (VStr "IPv4") false "192.168.1.100"]);
   ("eth0", [NetInfo (VStr "IPv4") false "10.0.0.7"])].

(** ** server.js *)

Section Bridge.

Variable JSON_parse : string → js_error + value.

(** The object literal of lines 61-69. *)
Definition alertData (now : string) (data : value) : js_error + value :=
  message ← get data "message";
  current_count ← get data "current_count";
  threshold ← get data "threshold";
  severity ← get data "severity";
  timestamp ← get data "timestamp";
  inr (VObj (spread data
    (<["timestamp" := or_else timestamp (VStr now)]>
    (<["severity" := or_else severity (VStr "warning")]>
    (<["threshold" := threshold]>
    (<["current_count" := current_count]>
    (<["message" := or_else message (VStr "Item count exceeded the limit.")]>
    (<["type" := VStr "count_exceeded"]> ∅)))))))).

(** [redis.on('message', (channel, message) => ...)], lines 50-83. *)
Definition on_message (now channel message : string) : M unit :=
  try_catch
    (data ← lift (JSON_parse message);
     console_log [LStr ("Received message from " +:+ channel +:+ ":"); LVal data];;
     if String.eqb channel "inventory" then
       io_emit "inventory-update" data;;
       io_to_emit "inventory-updates" "inventory-update" data
     else if String.eqb channel "inventory-alerts" then
       alert ← lift (alertData now data);
       io_emit "inventory-alert" alert;;
       io_to_emit "inventory-alerts" "inventory-alert" alert
     else ret ())
    (λ error,
       console_error [LStr "Error parsing message from Redis:"; LErr error];;
       console_log [LStr "Raw message:"; LStr message]).

(** [io.on('connection', (socket) => ...)], line 86. *)
Definition on_connection (id : string) : M unit :=
  console_log [LStr ("Client connected: " +:+ id)].

(** The listeners registered on each socket, lines 89-111. *)
Definition socket_on (id event : string) : option (M unit) :=
  if String.eqb event "join-inventory-updates" then
    Some (socket_join id "inventory-updates";;
          console_log [LStr ("Client " +:+ id +:+ " joined inventory-updates room")])
  else if String.eqb event "join-inventory-alerts" then
    Some (socket_join id "inventory-alerts";;
          console_log [LStr ("Client " +:+ id +:+ " joined inventory-alerts room")])
  else if String.eqb event "leave-inventory-updates" then
    Some (socket_leave id "inventory-updates";;
          console_log [LStr ("Client " +:+ id +:+ " left inventory-updates room")])
  else if String.eqb event "leave-inventory-alerts" then
    Some (socket_leave id "inventory-alerts";;
          console_log [LStr ("Client " +:+ id +:+ " left inventory-alerts room")])
  else if String.eqb event "disconnect" then
    Some (console_log [LStr ("Client disconnected: " +:+ id)])
  else None.

Definition fire (id event : string) : M unit :=
  match socket_on id event with
  | Some listener => listener
  | None => ret ()
  end.

(** What the event loop hands to the callbacks, one at a time: a socket
    connects (socket ids are unique, so the id of a connected socket does
    not connect again), a connected socket sends an event or closes, or
    Redis delivers a message, which comes with the reading of the clock.
    [ClientEmit id event] is an event that socket.io hands to the
    listeners of the socket; a packet whose event name socket.io reserves
    ('connect', 'disconnect', ...) is not handed to them: socket.io closes
    the socket, which is the input [Disconnect id]. *)
Inductive input :=
| Connect (id : string)
| ClientEmit (id event : string)
| Disconnect (id : string)
| RedisMessage (now channel message : string).

Definition callback (i : input) : M unit :=
  match i with
  | Connect id =>
      λ s, if decide (connected s id) then ret () s
           else (adapter_add id;; on_connection id) s
  | ClientEmit id event =>
      λ s, if decide (connected s id) then fire id event s else ret () s
  | Disconnect id =>
      λ s, if decide (connected s id)
           then (adapter_del_all id;; fire id "disconnect") s
           else ret () s
  | RedisMessage now channel message => on_message now channel message
  end.

(** One turn of the event loop; an exception that escapes the callback
    ends the process. *)
Definition step (s : server) (i : input) : js_error + server :=
  match callback i s with
  | (inr _, s') => inr s'
  | (inl e, _) => inl e
  end.

Fixpoint run (s : server) (inputs : list input) : js_error + server :=
  match inputs with
  | [] => inr s
  | i :: rest =>
      match step s i with
      | inr s' => run s' rest
      | inl e => inl e
      end
  end.

(** A callback that returns normally and only adds [new] to the trace. *)
Definition adds (c : M unit) (s : server) (new : list effect) : Prop :=
  c s = (inr (), Server (sids s) (trace s ++ new)).

(** The fallback that [||] supplies in the literal of lines 61-69. *)
Definition fallback (now k : string) : option value :=
  if String.eqb k "message" then Some (VStr "Item count exceeded the limit.")
  else if String.eqb k "severity" then Some (VStr "warning")
  else if String.eqb k "timestamp" then Some (VStr now)
  else None.

(** *** The handler with the clock of the machine

    [new Date()] consults the clock, and two consultations need not read
    the same time.  Here the state of the process counts the
    consultations made so far and [clock n] is the text that the
    consultation number [n] reads; the handler above is this one with the
    next reading of the clock for [now] (see [on_message_timed_now]). *)

Record timed := Timed {
  process : server;
  consulted : nat
}.

Definition T (A : Type) : Type := timed → (js_error + A) * timed.

#[global] Instance T_ret : MRet T := λ A a t, (inr a, t).
#[global] Instance T_bind : MBind T :=
  λ A B k c t, match c t with
               | (inr a, t') => k a t'
               | (inl e, t') => (inl e, t')
               end.

Definition try_catch_timed {A} (body : T A) (handler : js_error → T A) : T A :=
  λ t, match body t with
       | (inr a, t') => (inr a, t')
       | (inl e, t') => handler e t'
       end.

(** A computation that does not look at the clock. *)
Definition untimed {A} (c : M A) : T A :=
  λ t, match c (process t) with
       | (r, s) => (r, Timed s (consulted t))
       end.

(** [new Date().toISOString()] *)
Definition new_Date_toISOString (clock : nat → string) : T value :=
  λ t, (inr (VStr (clock (consulted t))), Timed (process t) (S (consulted t))).

(** The literal of lines 61-69, entry by entry: the right operand of the
    last [||] is evaluated, and the clock consulted, only when
    [data.timestamp] is falsy. *)
Definition alertData_timed (clock : nat → string) (data : value) : T value :=
  message ← untimed (lift (get data "message"));
  current_count ← untimed (lift (get data "current_count"));
  threshold ← untimed (lift (get data "threshold"));
  severity ← untimed (lift (get data "severity"));
  timestamp ← untimed (lift (get data "timestamp"));
  stamp ← (if ToBoolean timestamp then mret timestamp
           else new_Date_toISOString clock);
  mret (VObj (spread data
    (<["timestamp" := stamp]>
    (<["severity" := or_else severity (VStr "warning")]>
    (<["threshold" := threshold]>
    (<["current_count" := current_count]>
    (<["message" := or_else message (VStr "Item count exceeded the limit.")]>
    (<["type" := VStr "count_exceeded"]> ∅)))))))).

(** Lines 50-83 again: [alertData] is a constant of the alert branch,
    evaluated where it is declared and named in both emissions. *)
Definition on_message_timed (clock : nat → string) (channel message : string) : T unit :=
  try_catch_timed
    (data ← untimed (lift (JSON_parse message));
     untimed (console_log
                [LStr ("Received message from " +:+ channel +:+ ":"); LVal data]);;
     if String.eqb channel "inventory" then
       untimed (io_emit "inventory-update" data);;
       untimed (io_to_emit "inventory-updates" "inventory-update" data)
     else if String.eqb channel "inventory-alerts" then
       alert ← alertData_timed clock data;
       untimed (io_emit "inventory-alert" alert);;
       untimed (io_to_emit "inventory-alerts" "inventory-alert" alert)
     else mret ())
    (λ error,
       untimed (console_error [LStr "Error parsing message from Redis:"; LErr error]);;
       untimed (console_log [LStr "Raw message:"; LStr message])).

(** Whether the enrichment of [data] consults the clock. *)
Definition reads_clock (data : value) : bool :=
  negb (ToBoolean (default VUndefined (own_enumerable data !! "timestamp"))).

Definition after_enrichment (data : value) (n : nat) : nat :=
  if reads_clock data then S n else n.

(** The consultations at the end of the handling of a message, [n] having
    been made before: one more for an alert whose payload is not null and
    has no truthy timestamp. *)
Definition after_message (channel message : string) (n : nat) : nat :=
  match JSON_parse message with
  | inr data =>
      if negb (String.eqb channel "inventory") && String.eqb channel "inventory-alerts"
      then match data with
           | VNull | VUndefined => n
           | _ => after_enrichment data n
           end
      else n
  | inl _ => n
  end.

(** A clock for the examples: the reading number [n] is the text ["t"]
    followed by [n]. *)
Definition ticking (n : nat) : string := "t" +:+ pretty n.

(** The six fields that the literal of lines 61-69 names. *)
Definition alert_fields : gset string :=
  {[ "type"; "message"; "current_count"; "threshold"; "severity"; "timestamp" ]}.

(** The branches of lines 55-72: channel, room and event. *)
Definition routes : list (string * string * string) :=
  [("inventory", "inventory-updates", "inventory-update");
   ("inventory-alerts", "inventory-alerts", "inventory-alert")].

(** The requests of lines 89-107, with the room each is about. *)
Definition join_requests : list (string * string) :=
  [("join-inventory-updates", "inventory-updates");
   ("join-inventory-alerts", "inventory-alerts")].

Definition leave_requests : list (string * string) :=
  [("leave-inventory-updates", "inventory-updates");
   ("leave-inventory-alerts", "inventory-alerts")].

(** A burst of Redis messages, each with the reading of the clock, its
    channel and its text. *)
Definition redis_messages (burst : list (string * string * string)) : list input :=
  (λ m, RedisMessage m.1.1 m.1.2 m.2) <$> burst.

Definition connects (id : string) (i : input) : bool :=
  match i with
  | Connect id' => String.eqb id' id
  | ClientEmit _ _ | Disconnect _ | RedisMessage _ _ _ => false
  end.

(** Every socket of the table is in no room but the one of its id and
    the two inventory rooms. *)
Definition rooms_bounded (table : gmap string (gset string)) : Prop :=
  ∀ id rs, table !! id = Some rs →
    rs ⊆ {[ id; "inventory-updates"; "inventory-alerts" ]}.

(** * Properties *)

Ltac unfold_handler :=
  unfold adds, on_message, try_catch, mbind, M_bind, bind, lift,
    console_log, console_error, io_emit, io_to_emit, perform, ret, throw.

Ltac unfold_step :=
  unfold step, callback, fire, socket_on, mbind, M_bind, bind, adapter_add,
    adapter_del_all, on_connection, socket_join, socket_leave, rooms_of,
    console_log, perform, ret.

Ltac unfold_step_in H :=
  unfold step, callback, fire, socket_on, mbind, M_bind, bind, adapter_add,
    adapter_del_all, on_connection, socket_join, socket_leave, console_log,
    perform, ret in H.

Ltac run_handler H :=
  unfold_handler; rewrite H; cbn; rewrite <- ?app_assoc; try reflexivity.

Lemma on_message_inventory s now msg data :
  JSON_parse msg = inr data →
  adds (on_message now "inventory" msg) s
    [ConsoleLog [LStr "Received message from inventory:"; LVal data];
     Emit Broadcast "inventory-update" data (dom (sids s));
     Emit (ToRoom "inventory-updates") "inventory-update" data
       (members "inventory-updates" (sids s))].
Proof. intros Hp. run_handler Hp. Qed.

Lemma on_message_alert s now msg data record :
  JSON_parse msg = inr data →
  alertData now data = inr record →
  adds (on_message now "inventory-alerts" msg) s
    [ConsoleLog [LStr "Received message from inventory-alerts:"; LVal data];
     Emit Broadcast "inventory-alert" record (dom (sids s));
     Emit (ToRoom "inventory-alerts") "inventory-alert" record
       (members "inventory-alerts" (sids s))].
Proof. intros Hp Ha. run_handler Hp. run_handler Ha. Qed.

Lemma on_message_alert_throws s now msg data e :
  JSON_parse msg = inr data →
  alertData now data = inl e →
  adds (on_message now "inventory-alerts" msg) s
    [ConsoleLog [LStr "Received message from inventory-alerts:"; LVal data];
     ConsoleError [LStr "Error parsing message from Redis:"; LErr e];
     ConsoleLog [LStr "Raw message:"; LStr msg]].
Proof. intros Hp Ha. run_handler Hp. run_handler Ha. Qed.

Lemma on_message_other s now channel msg data :
  JSON_parse msg = inr data →
  channel ≠ "inventory" → channel ≠ "inventory-alerts" →
  adds (on_message now channel msg) s
    [ConsoleLog [LStr ("Received message from " +:+ channel +:+ ":"); LVal data]].
Proof.
  intros Hp H1 H2. apply String.eqb_neq in H1, H2.
  run_handler Hp. rewrite H1, H2. reflexivity.
Qed.

Lemma on_message_undecodable s now channel msg e :
  JSON_parse msg = inl e →
  adds (on_message now channel msg) s
    [ConsoleError [LStr "Error parsing message from Redis:"; LErr e];
     ConsoleLog [LStr "Raw message:"; LStr msg]].
Proof. intros Hp. run_handler Hp. Qed.

Lemma step_adds s i new :
  adds (callback i) s new → step s i = inr (Server (sids s) (trace s ++ new)).
Proof. unfold adds, step. intros ->. reflexivity. Qed.

Lemma received_app id t1 t2 : received id (t1 ++ t2) = received id t1 ++ received id t2.
Proof. apply omap_app. Qed.

Lemma emissions_app t1 t2 : emissions (t1 ++ t2) = emissions t1 ++ emissions t2.
Proof. apply List.filter_app. Qed.

Lemma elem_of_members id room (table : gmap string (gset string)) :
  id ∈ members room table ↔ room ∈ default ∅ (table !! id).
Proof.
  unfold members. rewrite elem_of_dom. split.
  - intros [rs Hrs]. apply map_lookup_filter_Some in Hrs as [-> Hin]. exact Hin.
  - destruct (table !! id) as [rs|] eqn:Hid; cbn; [|set_solver].
    intros Hin. exists rs. apply map_lookup_filter_Some. done.
Qed.

Lemma members_in_room s id room : id ∈ members room (sids s) ↔ in_room s id room.
Proof. apply elem_of_members. Qed.

(** The double emission, seen from one socket. *)
Lemma received_double s id room event payload line :
  connected s id →
  received id [ConsoleLog line;
               Emit Broadcast event payload (dom (sids s));
               Emit (ToRoom room) event payload (members room (sids s))] =
    if decide (in_room s id room)
    then [(event, payload); (event, payload)]
    else [(event, payload)].
Proof.
  intros Hc. unfold connected in Hc. cbn.
  destruct (decide (id ∈ dom (sids s))) as [_|]; [|done].
  destruct (decide (id ∈ members room (sids s))) as [Hm|Hm];
    rewrite members_in_room in Hm;
    destruct (decide (in_room s id room)); done.
Qed.

(** The enrichment reads five properties and, on anything but [null] and
    [undefined], cannot throw. *)
Lemma alertData_object now (m : gmap string value) :
  alertData now (VObj m) =
    inr (VObj (m ∪
      (<["timestamp" := or_else (default VUndefined (m !! "timestamp")) (VStr now)]>
      (<["severity" := or_else (default VUndefined (m !! "severity")) (VStr "warning")]>
      (<["threshold" := default VUndefined (m !! "threshold")]>
      (<["current_count" := default VUndefined (m !! "current_count")]>
      (<["message" := or_else (default VUndefined (m !! "message"))
                        (VStr "Item count exceeded the limit.")]>
      (<["type" := VStr "count_exceeded"]> ∅)))))))).
Proof. reflexivity. Qed.

Lemma alertData_returns now data :
  data ≠ VNull → data ≠ VUndefined → ∃ record, alertData now data = inr (VObj record).
Proof. intros Hn Hu. destruct data; try done; eexists; reflexivity. Qed.

(** On a value other than an object the record is built the same way from
    the properties that the spread copies: the elements of an array and
    the characters of a string under their indices, nothing for a number
    or a boolean. *)
Lemma alertData_spreads now data :
  data ≠ VNull → data ≠ VUndefined →
  alertData now data = alertData now (VObj (own_enumerable data)).
Proof. intros Hn Hu. by destruct data. Qed.

Lemma alertData_null now :
  alertData now VNull =
    inl (TypeError "Cannot read properties of null (reading 'message')").
Proof. reflexivity. Qed.

(** The handler of Redis messages always returns, leaves the table of
    rooms as it found it, and what it adds to the trace does not depend on
    the trace so far. *)
Lemma on_message_adds table now channel msg :
  ∃ new, ∀ tr, adds (on_message now channel msg) (Server table tr) new.
Proof.
  destruct (JSON_parse msg) as [e|data] eqn:Hp.
  { eexists. intros tr. by apply on_message_undecodable. }
  destruct (decide (channel = "inventory")) as [->|H1].
  { exists [ConsoleLog [LStr "Received message from inventory:"; LVal data];
            Emit Broadcast "inventory-update" data (dom table);
            Emit (ToRoom "inventory-updates") "inventory-update" data
              (members "inventory-updates" table)].
    intros tr. by apply (on_message_inventory (Server table tr)). }
  destruct (decide (channel = "inventory-alerts")) as [->|H2].
  - destruct (alertData now data) as [e|record] eqn:Ha.
    + eexists. intros tr. by eapply (on_message_alert_throws (Server table tr)).
    + exists [ConsoleLog [LStr "Received message from inventory-alerts:"; LVal data];
              Emit Broadcast "inventory-alert" record (dom table);
              Emit (ToRoom "inventory-alerts") "inventory-alert" record
                (members "inventory-alerts" table)].
      intros tr. by eapply (on_message_alert (Server table tr)).
  - eexists. intros tr. by apply on_message_other.
Qed.

Lemma on_message_returns s now channel msg :
  ∃ new, adds (on_message now channel msg) s new.
Proof.
  destruct s as [table tr]. destruct (on_message_adds table now channel msg) as [new H].
  eauto.
Qed.

(** No callback lets an exception escape, and a turn of the loop depends
    on the table of rooms only: it ends in a state whose table and whose
    addition to the trace are the same whatever the trace so far. *)
Lemma step_extends table i :
  ∃ table' new, ∀ tr, step (Server table tr) i = inr (Server table' (tr ++ new)).
Proof.
  assert (∀ tr : list effect, tr ++ [] = tr) as Hnil by apply app_nil_r.
  destruct i as [id|id event|id|now channel msg].
  - destruct (decide (id ∈ dom table)) as [Hc|Hc]; eexists _, _; intros tr;
      unfold_step;
      (destruct (decide (connected (Server table tr) id)); [|try done]); try done; cbn.
    + by rewrite Hnil.
    + reflexivity.
  - destruct (decide (id ∈ dom table)) as [Hc|Hc].
    2:{ eexists _, _; intros tr. unfold_step.
        destruct (decide (connected (Server table tr) id)); [done|].
        cbn. by rewrite Hnil. }
    destruct (socket_on id event) as [listener|] eqn:Hon.
    2:{ eexists _, _; intros tr. unfold step, callback, fire. rewrite Hon.
        destruct (decide (connected (Server table tr) id)); [|done].
        cbn. by rewrite Hnil. }
    unfold socket_on in Hon.
    repeat match type of Hon with
           | context [String.eqb event ?name] =>
               destruct (String.eqb_spec event name) as [->|_];
               [clear Hon; eexists _, _; intros tr; unfold_step;
                destruct (decide (connected (Server table tr) id)); [|done];
                cbn; reflexivity|]
           end.
    cbn in Hon. done.
  - destruct (decide (id ∈ dom table)) as [Hc|Hc]; eexists _, _; intros tr;
      unfold_step;
      (destruct (decide (connected (Server table tr) id)); [|try done]); try done; cbn.
    + reflexivity.
    + by rewrite Hnil.
  - destruct (on_message_adds table now channel msg) as [new Hnew].
    exists table, new. intros tr. unfold step, callback. by rewrite (Hnew tr).
Qed.

Lemma step_returns s i : ∃ s', step s i = inr s'.
Proof.
  destruct s as [table tr]. destruct (step_extends table i) as (table' & new & H).
  rewrite H. eauto.
Qed.

(** C3, confirmed.  A message on channel 'inventory' that decodes to an
    object is emitted exactly twice as 'inventory-update', the decoded
    object unchanged in both: once to every connected socket and once to
    the sockets in room 'inventory-updates'.  A connected socket in that
    room is sent two packets for the message, a connected socket outside
    it one. *)
Theorem inventory_message_emitted_twice s now msg (m : gmap string value) :
  JSON_parse msg = inr (VObj m) →
  ∃ new everyone room_members,
    step s (RedisMessage now "inventory" msg) = inr (Server (sids s) (trace s ++ new)) ∧
    emissions new =
      [Emit Broadcast "inventory-update" (VObj m) everyone;
       Emit (ToRoom "inventory-updates") "inventory-update" (VObj m) room_members] ∧
    (∀ id, id ∈ everyone ↔ connected s id) ∧
    (∀ id, id ∈ room_members ↔ in_room s id "inventory-updates") ∧
    (∀ id, connected s id → in_room s id "inventory-updates" →
       received id new =
         [("inventory-update", VObj m); ("inventory-update", VObj m)]) ∧
    (∀ id, connected s id → ¬ in_room s id "inventory-updates" →
       received id new = [("inventory-update", VObj m)]).
Proof.
  intros Hp. eexists _, _, _. split.
  { apply step_adds, on_message_inventory, Hp. }
  split; [reflexivity|]. split; [done|].
  split; [intros id; apply members_in_room|].
  split; intros id Hc Hr; rewrite received_double by done;
    destruct (decide (in_room s id "inventory-updates")); done.
Qed.

(** The literal of lines 61-69 and the record of the specification differ
    only at fields that the payload carries, where the spread decides. *)
Lemma alert_record_overlaid now (m : gmap string value) :
  ∃ record,
    alertData now (VObj m) = inr (VObj record) ∧
    overlaid record (default_record now m) m.
Proof.
  eexists. split; [apply alertData_object|].
  intros k. rewrite lookup_union. unfold default_record.
  destruct (m !! k) as [v|] eqn:Hk.
  { match goal with |- Some v ∪ ?d = _ => by destruct d end. }
  rewrite (left_id_L None (∪)).
  destruct (decide (k = "timestamp")) as [->|]; [rewrite Hk; by simplify_map_eq|].
  destruct (decide (k = "severity")) as [->|]; [rewrite Hk; by simplify_map_eq|].
  destruct (decide (k = "message")) as [->|]; [rewrite Hk; by simplify_map_eq|].
  destruct (decide (k = "threshold")) as [->|]; [by simplify_map_eq|].
  destruct (decide (k = "current_count")) as [->|]; [by simplify_map_eq|].
  destruct (decide (k = "type")) as [->|]; by simplify_map_eq.
Qed.

Lemma overlaid_payload_wins (record defaults payload : gmap string value) k v :
  overlaid record defaults payload → payload !! k = Some v → record !! k = Some v.
Proof. intros Ho Hk. by rewrite (Ho k), Hk. Qed.

Lemma overlaid_default_fills (record defaults payload : gmap string value) k :
  overlaid record defaults payload → payload !! k = None → record !! k = defaults !! k.
Proof. intros Ho Hk. by rewrite (Ho k), Hk. Qed.

(** C1, confirmed.  For an alert message whose payload decodes to an
    object, the record emitted (the same in both emissions) is the record
    of defaults overlaid field for field by the payload: every field the
    payload carries has the payload's value, 'type' included, and every
    other field has its default.  For the payload
    {severity: "critical", type: "custom"} the severity emitted is
    "critical" and the type "custom". *)
Theorem alert_is_defaults_overlaid_by_payload s now msg (m : gmap string value) :
  JSON_parse msg = inr (VObj m) →
  ∃ record,
    step s (RedisMessage now "inventory-alerts" msg) =
      inr (Server (sids s) (trace s ++
        [ConsoleLog [LStr "Received message from inventory-alerts:"; LVal (VObj m)];
         Emit Broadcast "inventory-alert" (VObj record) (dom (sids s));
         Emit (ToRoom "inventory-alerts") "inventory-alert" (VObj record)
           (members "inventory-alerts" (sids s))])) ∧
    overlaid record (default_record now m) m ∧
    (∀ k v, m !! k = Some v → record !! k = Some v) ∧
    (∀ k, m !! k = None → record !! k = default_record now m !! k) ∧
    (m = {[ "severity" := VStr "critical"; "type" := VStr "custom" ]} →
     record !! "severity" = Some (VStr "critical") ∧
     record !! "type" = Some (VStr "custom")).
Proof.
  intros Hp. destruct (alert_record_overlaid now m) as (record & Ha & Ho).
  exists record. split.
  { apply step_adds. by apply on_message_alert. }
  split; [exact Ho|]. split; [intros k v; exact (overlaid_payload_wins _ _ _ k v Ho)|].
  split; [intros k; exact (overlaid_default_fills _ _ _ k Ho)|].
  intros ->. split; (eapply overlaid_payload_wins; [exact Ho|reflexivity]).
Qed.

(** C2, confirmed.  An alert payload with current_count 150 and threshold
    100 and without message, severity, timestamp and type is emitted with
    the default message, severity and type, the two counters as given,
    and the enrichment time as timestamp. *)
Theorem alert_with_counts_only_gets_defaults s now msg (m : gmap string value) :
  JSON_parse msg = inr (VObj m) →
  m !! "current_count" = Some (VNum 150) →
  m !! "threshold" = Some (VNum 100) →
  m !! "message" = None → m !! "severity" = None →
  m !! "timestamp" = None → m !! "type" = None →
  ∃ record,
    step s (RedisMessage now "inventory-alerts" msg) =
      inr (Server (sids s) (trace s ++
        [ConsoleLog [LStr "Received message from inventory-alerts:"; LVal (VObj m)];
         Emit Broadcast "inventory-alert" (VObj record) (dom (sids s));
         Emit (ToRoom "inventory-alerts") "inventory-alert" (VObj record)
           (members "inventory-alerts" (sids s))])) ∧
    record !! "message" = Some (VStr "Item count exceeded the limit.") ∧
    record !! "severity" = Some (VStr "warning") ∧
    record !! "type" = Some (VStr "count_exceeded") ∧
    record !! "current_count" = Some (VNum 150) ∧
    record !! "threshold" = Some (VNum 100) ∧
    record !! "timestamp" = Some (VStr now).
Proof.
  intros Hp Hc Ht Hm Hs Hts Hty.
  destruct (alert_record_overlaid now m) as (record & Ha & Ho).
  exists record. split.
  { apply step_adds. by apply on_message_alert. }
  rewrite (overlaid_default_fills _ _ _ _ Ho Hm), (overlaid_default_fills _ _ _ _ Ho Hs),
    (overlaid_default_fills _ _ _ _ Ho Hts), (overlaid_default_fills _ _ _ _ Ho Hty),
    (overlaid_payload_wins _ _ _ _ _ Ho Hc), (overlaid_payload_wins _ _ _ _ _ Ho Ht).
  repeat split; reflexivity.
Qed.

(** C5, confirmed.  A decoded message on a channel other than 'inventory'
    and 'inventory-alerts' produces no emission and no packet to any
    socket; the line that reports the receipt is all the handler adds. *)
Theorem unknown_channel_emits_nothing s now channel msg data :
  JSON_parse msg = inr data →
  channel ≠ "inventory" → channel ≠ "inventory-alerts" →
  ∃ new,
    step s (RedisMessage now channel msg) = inr (Server (sids s) (trace s ++ new)) ∧
    new = [ConsoleLog [LStr ("Received message from " +:+ channel +:+ ":"); LVal data]] ∧
    emissions new = [] ∧
    ∀ id, received id new = [].
Proof.
  intros Hp H1 H2. eexists. split.
  { apply step_adds. by apply on_message_other. }
  done.
Qed.

(** C9, confirmed.  The JSON text 'null' is dropped on 'inventory-alerts':
    reading a field of null throws, the catch branch logs, and nothing is
    emitted.  On 'inventory' the same text is emitted twice as
    'inventory-update' with payload null. *)
Theorem null_dropped_on_alerts_passed_on_inventory s now :
  JSON_parse "null" = inr VNull →
  (∃ new,
     step s (RedisMessage now "inventory-alerts" "null") =
       inr (Server (sids s) (trace s ++ new)) ∧
     new =
       [ConsoleLog [LStr "Received message from inventory-alerts:"; LVal VNull];
        ConsoleError [LStr "Error parsing message from Redis:";
                      LErr (TypeError "Cannot read properties of null (reading 'message')")];
        ConsoleLog [LStr "Raw message:"; LStr "null"]] ∧
     emissions new = [] ∧
     ∀ id, received id new = []) ∧
  (∃ new,
     step s (RedisMessage now "inventory" "null") =
       inr (Server (sids s) (trace s ++ new)) ∧
     emissions new =
       [Emit Broadcast "inventory-update" VNull (dom (sids s));
        Emit (ToRoom "inventory-updates") "inventory-update" VNull
          (members "inventory-updates" (sids s))] ∧
     ∀ id, connected s id → received id new ≠ []).
Proof.
  intros Hp. split; eexists; (split; [apply step_adds|]).
  - eapply on_message_alert_throws; [exact Hp|apply alertData_null].
  - done.
  - by apply on_message_inventory.
  - split; [reflexivity|]. intros id Hc. rewrite received_double by done.
    by destruct (decide _).
Qed.

(** C4, amended.  A message that fails to decode makes the handler log
    the error and the raw payload (the channel is in neither line), emit
    nothing, and return normally with the table of rooms untouched; no
    socket is sent anything.  The loop goes on: whatever input comes next
    is handled as it would have been without the failed message, the two
    console lines apart. *)
Theorem undecodable_message_logged_and_dropped s now channel msg e :
  JSON_parse msg = inl e →
  ∃ new,
    step s (RedisMessage now channel msg) = inr (Server (sids s) (trace s ++ new)) ∧
    new = [ConsoleError [LStr "Error parsing message from Redis:"; LErr e];
           ConsoleLog [LStr "Raw message:"; LStr msg]] ∧
    emissions new = [] ∧
    (∀ id, received id new = []) ∧
    (∀ rest, run s (RedisMessage now channel msg :: rest) =
             run (Server (sids s) (trace s ++ new)) rest) ∧
    (∀ i, ∃ table' next,
       step s i = inr (Server table' (trace s ++ next)) ∧
       step (Server (sids s) (trace s ++ new)) i =
         inr (Server table' ((trace s ++ new) ++ next))).
Proof.
  intros Hp. eexists. split.
  { apply step_adds. by apply on_message_undecodable. }
  split; [reflexivity|]. split; [reflexivity|]. split; [done|]. split.
  - intros rest. cbn [run]. erewrite step_adds by (by apply on_message_undecodable).
    reflexivity.
  - intros i. destruct (step_extends (sids s) i) as (table' & next & Hnext).
    exists table', next. rewrite <- (Hnext (trace s)), <- (Hnext (trace s ++ _)).
    by destruct s.
Qed.

(** C8, amended.  In alert enrichment a field that the payload carries
    with a falsy value (severity set to the empty string, say) is emitted
    with that value: the spread of the payload writes it over the
    fallback that [||] chose.  The fallback ('warning' for severity)
    appears in the record when the payload does not carry the field. *)
Theorem falsy_field_of_payload_is_emitted s now msg (m : gmap string value) k d :
  JSON_parse msg = inr (VObj m) →
  fallback now k = Some d →
  ∃ record,
    step s (RedisMessage now "inventory-alerts" msg) =
      inr (Server (sids s) (trace s ++
        [ConsoleLog [LStr "Received message from inventory-alerts:"; LVal (VObj m)];
         Emit Broadcast "inventory-alert" (VObj record) (dom (sids s));
         Emit (ToRoom "inventory-alerts") "inventory-alert" (VObj record)
           (members "inventory-alerts" (sids s))])) ∧
    (∀ v, m !! k = Some v → ToBoolean v = false → record !! k = Some v) ∧
    (m !! k = None → record !! k = Some d).
Proof.
  intros Hp Hk. destruct (alert_record_overlaid now m) as (record & Ha & Ho).
  exists record. split.
  { apply step_adds. by apply on_message_alert. }
  split.
  - intros v Hv _. exact (overlaid_payload_wins _ _ _ _ _ Ho Hv).
  - intros Hn. rewrite (overlaid_default_fills _ _ _ _ Ho Hn).
    unfold fallback in Hk.
    destruct (String.eqb_spec k "message") as [->|_]; [by simplify_eq|].
    destruct (String.eqb_spec k "severity") as [->|_]; [by simplify_eq|].
    destruct (String.eqb_spec k "timestamp") as [->|_]; [by simplify_eq|].
    done.
Qed.

Lemma socket_join_joined s id room :
  in_room s id room → sids (socket_join id room s).2 = sids s.
Proof.
  clear JSON_parse. unfold in_room, rooms_of. cbn. unfold rooms_of.
  destruct (sids s !! id) as [rs|] eqn:Hid; cbn; [|set_solver].
  intros Hin. assert ({[room]} ∪ rs = rs) as -> by set_solver.
  by apply insert_id.
Qed.

Lemma socket_leave_not_joined s id room :
  ¬ in_room s id room → sids (socket_leave id room s).2 = sids s.
Proof.
  clear JSON_parse. unfold in_room, rooms_of. cbn. intros Hout.
  apply map_eq. intros j. rewrite lookup_alter.
  case_decide as Hj; [subst j|done].
  destruct (sids s !! id) as [rs|] eqn:Hid; cbn in *; [|done].
  f_equal. set_solver.
Qed.

Lemma in_room_after_join s id room : in_room (socket_join id room s).2 id room.
Proof.
  clear JSON_parse. unfold in_room, rooms_of. cbn. rewrite lookup_insert_eq. cbn.
  set_solver.
Qed.

Lemma not_in_room_after_leave s id room : ¬ in_room (socket_leave id room s).2 id room.
Proof.
  clear JSON_parse. unfold in_room, rooms_of. cbn. rewrite lookup_alter_eq.
  destruct (sids s !! id); cbn; set_solver.
Qed.

(** What the four room listeners do when a connected socket fires them. *)
Lemma step_join s id event room :
  connected s id →
  (event, room) ∈ [("join-inventory-updates", "inventory-updates");
                   ("join-inventory-alerts", "inventory-alerts")] →
  step s (ClientEmit id event) =
    inr (Server (sids (socket_join id room s).2)
           (trace s ++ [ConsoleLog [LStr ("Client " +:+ id +:+ " joined " +:+ room +:+ " room")]])).
Proof.
  intros Hc Hev. unfold step. cbn. destruct (decide (connected s id)); [|done].
  repeat (apply elem_of_cons in Hev as [[= -> ->]|Hev]; [reflexivity|]).
  by apply elem_of_nil in Hev.
Qed.

Lemma step_leave s id event room :
  connected s id →
  (event, room) ∈ [("leave-inventory-updates", "inventory-updates");
                   ("leave-inventory-alerts", "inventory-alerts")] →
  step s (ClientEmit id event) =
    inr (Server (sids (socket_leave id room s).2)
           (trace s ++ [ConsoleLog [LStr ("Client " +:+ id +:+ " left " +:+ room +:+ " room")]])).
Proof.
  intros Hc Hev. unfold step. cbn. destruct (decide (connected s id)); [|done].
  repeat (apply elem_of_cons in Hev as [[= -> ->]|Hev]; [reflexivity|]).
  by apply elem_of_nil in Hev.
Qed.

Lemma step_connect s id :
  step s (Connect id) =
    inr (if decide (connected s id) then s
         else Server (<[id := {[id]}]> (sids s))
                (trace s ++ [ConsoleLog [LStr ("Client connected: " +:+ id)]])).
Proof. unfold step. cbn. by destruct (decide (connected s id)). Qed.

Lemma step_disconnect s id :
  step s (Disconnect id) =
    inr (if decide (connected s id)
         then Server (delete id (sids s))
                (trace s ++ [ConsoleLog [LStr ("Client disconnected: " +:+ id)]])
         else s).
Proof. unfold step. cbn. by destruct (decide (connected s id)). Qed.

(** C6, confirmed.  For a connected socket, a join request for a room it
    is in and a leave request for a room it is not in leave the table of
    rooms as it was; and after two join requests for 'inventory-alerts'
    followed by one leave request the socket is not in that room. *)
Theorem join_is_idempotent_and_leave_of_absent_is_noop s id :
  connected s id →
  (∀ event room,
     (event, room) ∈ [("join-inventory-updates", "inventory-updates");
                      ("join-inventory-alerts", "inventory-alerts")] →
     in_room s id room →
     ∃ s', step s (ClientEmit id event) = inr s' ∧ sids s' = sids s) ∧
  (∀ event room,
     (event, room) ∈ [("leave-inventory-updates", "inventory-updates");
                      ("leave-inventory-alerts", "inventory-alerts")] →
     ¬ in_room s id room →
     ∃ s', step s (ClientEmit id event) = inr s' ∧ sids s' = sids s) ∧
  (∀ room, in_room s id room → sids (socket_join id room s).2 = sids s) ∧
  (∀ room, ¬ in_room s id room → sids (socket_leave id room s).2 = sids s) ∧
  ∃ s1 s2 s3,
    step s (ClientEmit id "join-inventory-alerts") = inr s1 ∧
    step s1 (ClientEmit id "join-inventory-alerts") = inr s2 ∧
    step s2 (ClientEmit id "leave-inventory-alerts") = inr s3 ∧
    in_room s1 id "inventory-alerts" ∧
    sids s2 = sids s1 ∧
    ¬ in_room s3 id "inventory-alerts".
Proof.
  intros Hc. split; [|split; [|split; [|split]]].
  - intros event room Hev Hin. eexists. split; [by apply step_join|].
    by apply socket_join_joined.
  - intros event room Hev Hout. eexists. split; [by apply step_leave|].
    by apply socket_leave_not_joined.
  - intros room. apply socket_join_joined.
  - intros room. apply socket_leave_not_joined.
  - assert (("join-inventory-alerts", "inventory-alerts") ∈
              [("join-inventory-updates", "inventory-updates");
               ("join-inventory-alerts", "inventory-alerts")]) as Hjoin by set_solver.
    assert (("leave-inventory-alerts", "inventory-alerts") ∈
              [("leave-inventory-updates", "inventory-updates");
               ("leave-inventory-alerts", "inventory-alerts")]) as Hleave by set_solver.
    assert (∀ s0, connected (socket_join id "inventory-alerts" s0).2 id) as Hstay.
    { intros s0. unfold connected. cbn. rewrite dom_insert_L. set_solver. }
    pose proof (step_join s id _ _ Hc Hjoin) as H1.
    set (s1 := Server _ _) in H1.
    assert (connected s1 id) as Hc1 by apply Hstay.
    assert (in_room s1 id "inventory-alerts") as Hin1
      by apply (in_room_after_join s id "inventory-alerts").
    pose proof (step_join s1 id _ _ Hc1 Hjoin) as H2.
    set (s2 := Server _ _) in H2.
    assert (connected s2 id) as Hc2 by apply Hstay.
    pose proof (step_leave s2 id _ _ Hc2 Hleave) as H3.
    set (s3 := Server _ _) in H3.
    exists s1, s2, s3. repeat split; try done.
    + apply (socket_join_joined s1 id "inventory-alerts" Hin1).
    + apply (not_in_room_after_leave s2 id "inventory-alerts").
Qed.

(** C7, confirmed.  Handling a Redis message leaves the table of rooms
    as it was, for every socket and every room; the entry of a socket
    changes only in a turn that is that socket's connection, one of its
    four join and leave requests, or its disconnection. *)
Theorem rooms_change_only_by_own_requests :
  (∀ s now channel msg,
     ∃ s', step s (RedisMessage now channel msg) = inr s' ∧
           sids s' = sids s ∧
           ∀ id room, in_room s' id room ↔ in_room s id room) ∧
  (∀ s i s' id,
     step s i = inr s' →
     sids s' !! id ≠ sids s !! id →
     i = Connect id ∨ i = Disconnect id ∨
     ∃ event, i = ClientEmit id event ∧
       event ∈ ["join-inventory-updates"; "join-inventory-alerts";
                "leave-inventory-updates"; "leave-inventory-alerts"]).
Proof.
  split.
  - intros s now channel msg.
    destruct (on_message_returns s now channel msg) as [new Hnew].
    eexists. split; [by apply step_adds|]. done.
  - intros s i s' id Hstep Hne.
    destruct i as [id0|id0 event|id0|now channel msg].
    + left. rewrite step_connect in Hstep.
      destruct (decide (connected s id0)); simplify_eq; try done. cbn in Hne.
      destruct (decide (id0 = id)) as [->|]; [done|].
      by rewrite lookup_insert_ne in Hne.
    + right; right. unfold_step_in Hstep.
      destruct (decide (connected s id0)); [|by simplify_eq].
      destruct (decide (id0 = id)) as [->|Hid].
      * exists event. split; [done|].
        repeat match type of Hstep with
               | context [String.eqb event ?name] =>
                   destruct (String.eqb_spec event name) as [->|_];
                   [first [by set_solver | cbn in Hstep; by simplify_eq]|]
               end.
        cbn in Hstep. by simplify_eq.
      * repeat match type of Hstep with
               | context [String.eqb event ?name] =>
                   destruct (String.eqb event name);
                   [cbn in Hstep; simplify_eq; cbn in Hne;
                    rewrite ?lookup_insert_ne, ?lookup_alter_ne in Hne; done|]
               end.
        cbn in Hstep. by simplify_eq.
    + right; left. rewrite step_disconnect in Hstep.
      destruct (decide (connected s id0)); simplify_eq; try done. cbn in Hne.
      destruct (decide (id0 = id)) as [->|]; [done|].
      by rewrite lookup_delete_ne in Hne.
    + destruct (on_message_returns s now channel msg) as [new Hnew].
      rewrite (step_adds s (RedisMessage now channel msg) new Hnew) in Hstep.
      by simplify_eq.
Qed.

(** * Further properties of the handlers *)

Lemma received_emissions id t : received id (emissions t) = received id t.
Proof.
  clear JSON_parse. induction t as [|e t IH]; [done|].
  change (emissions (e :: t)) with (if is_emit e then e :: emissions t else emissions t).
  destruct e; cbn [is_emit]; try exact IH.
  unfold received in *. cbn [omap list_omap]. by rewrite IH.
Qed.

Lemma step_message s now channel msg :
  ∃ new,
    step s (RedisMessage now channel msg) = inr (Server (sids s) (trace s ++ new)) ∧
    (emissions new = [] ∨
     ∃ room event payload,
       (channel, room, event) ∈ routes ∧
       emissions new =
         [Emit Broadcast event payload (dom (sids s));
          Emit (ToRoom room) event payload (members room (sids s))]).
Proof.
  destruct (JSON_parse msg) as [e|data] eqn:Hp.
  { eexists. split; [apply step_adds; by apply on_message_undecodable|by left]. }
  destruct (decide (channel = "inventory")) as [->|H1].
  { eexists. split; [apply step_adds; by apply on_message_inventory|].
    right. eexists _, _, _. split; [|reflexivity]. by left. }
  destruct (decide (channel = "inventory-alerts")) as [->|H2].
  - destruct (alertData now data) as [e|record] eqn:Ha.
    + eexists. split; [apply step_adds; by eapply on_message_alert_throws|by left].
    + eexists. split; [apply step_adds; by eapply on_message_alert|].
      right. eexists _, _, _. split; [|reflexivity]. right. by left.
  - eexists. split; [apply step_adds; by apply on_message_other|by left].
Qed.

(** X7.  Whatever the message, the handler returns with the table of
    rooms as it was and has emitted either nothing or one broadcast
    followed by one room emission with the same event and payload, the
    room and the event being those of the channel of the message: a
    message on one channel never yields the event of the other channel
    and never addresses the other room. *)
Theorem message_follows_its_route s now channel msg :
  ∃ new,
    step s (RedisMessage now channel msg) = inr (Server (sids s) (trace s ++ new)) ∧
    (emissions new = [] ∨
     ∃ room event payload,
       (channel, room, event) ∈ routes ∧
       emissions new =
         [Emit Broadcast event payload (dom (sids s));
          Emit (ToRoom room) event payload (members room (sids s))]).
Proof. apply step_message. Qed.

(** For one message: nothing for a socket that is not connected, and
    otherwise nothing, one packet, or the same packet twice. *)
Lemma step_message_received s now channel msg :
  ∃ new,
    step s (RedisMessage now channel msg) = inr (Server (sids s) (trace s ++ new)) ∧
    ∀ id,
      (¬ connected s id → received id new = []) ∧
      (received id new = [] ∨
       ∃ packet, received id new = [packet] ∨ received id new = [packet; packet]).
Proof.
  destruct (step_message s now channel msg)
    as (new & Hstep & [Hnone|(room & event & payload & _ & Hemit)]);
    exists new; (split; [exact Hstep|]); intros id;
    rewrite <- (received_emissions id new).
  { rewrite Hnone. split; [done|by left]. }
  rewrite Hemit. cbn.
  destruct (decide (id ∈ dom (sids s))) as [Hc|Hc].
  - split; [done|]. right. exists (event, payload).
    destruct (decide (id ∈ members room (sids s))); [by right|by left].
  - destruct (decide (id ∈ members room (sids s))) as [Hm|Hm].
    + exfalso. apply Hc. apply elem_of_members in Hm. apply elem_of_dom.
      destruct (sids s !! id); [done|]. by apply elem_of_empty in Hm.
    + split; [done|by left].
Qed.

(** X8.  For one message a socket is sent no packet, one packet, or the
    same packet twice, never more; a socket that is not connected is sent
    none. *)
Theorem message_reaches_a_socket_at_most_twice s now channel msg :
  ∃ new,
    step s (RedisMessage now channel msg) = inr (Server (sids s) (trace s ++ new)) ∧
    ∀ id,
      (¬ connected s id → received id new = []) ∧
      (received id new = [] ∨
       ∃ packet, received id new = [packet] ∨ received id new = [packet; packet]).
Proof. apply step_message_received. Qed.

(** X9.  On channel 'inventory' nothing is asked of the decoded value:
    whatever it is (object, array, string, number, boolean, null) it is
    emitted unchanged, to every connected socket and to the room, so that
    a connected socket is sent it twice in the room and once outside. *)
Theorem inventory_passes_any_value s now msg data :
  JSON_parse msg = inr data →
  ∃ new,
    step s (RedisMessage now "inventory" msg) = inr (Server (sids s) (trace s ++ new)) ∧
    emissions new =
      [Emit Broadcast "inventory-update" data (dom (sids s));
       Emit (ToRoom "inventory-updates") "inventory-update" data
         (members "inventory-updates" (sids s))] ∧
    ∀ id, connected s id →
      received id new =
        if decide (in_room s id "inventory-updates")
        then [("inventory-update", data); ("inventory-update", data)]
        else [("inventory-update", data)].
Proof.
  intros Hp. eexists. split; [apply step_adds; by apply on_message_inventory|].
  split; [reflexivity|]. intros id Hc. by apply received_double.
Qed.

Lemma alertData_any now data :
  data ≠ VNull → data ≠ VUndefined →
  ∃ record,
    alertData now data = inr (VObj record) ∧
    overlaid record (default_record now (own_enumerable data)) (own_enumerable data).
Proof.
  intros Hn Hu. rewrite alertData_spreads by done. apply alert_record_overlaid.
Qed.

Lemma overlaid_dom (record defaults payload : gmap string value) :
  overlaid record defaults payload → dom record = dom payload ∪ dom defaults.
Proof.
  clear JSON_parse. intros Ho. apply set_eq. intros k.
  rewrite elem_of_union, !elem_of_dom, (Ho k).
  destruct (payload !! k) as [v|]; naive_solver.
Qed.

Lemma default_record_dom now (payload : gmap string value) :
  dom (default_record now payload) = alert_fields.
Proof.
  clear JSON_parse. unfold default_record, alert_fields.
  rewrite !dom_insert_L, dom_singleton_L. set_solver.
Qed.

Lemma alertData_fields now data :
  data ≠ VNull → data ≠ VUndefined →
  ∃ record,
    alertData now data = inr (VObj record) ∧
    overlaid record (default_record now (own_enumerable data)) (own_enumerable data) ∧
    dom record = dom (own_enumerable data) ∪ alert_fields ∧
    (own_enumerable data = ∅ → record = default_record now ∅).
Proof.
  intros Hn Hu. destruct (alertData_any now data Hn Hu) as (record & Ha & Ho).
  exists record. split; [exact Ha|]. split; [exact Ho|]. split.
  - by rewrite (overlaid_dom _ _ _ Ho), default_record_dom.
  - intros Hempty. rewrite Hempty in Ho. apply map_eq. intros k.
    by rewrite (Ho k), lookup_empty.
Qed.

(** X10.  For every decoded value other than null (object, array,
    string, number or boolean) the alert record is the record of defaults
    overlaid by the own enumerable properties of the value, and its fields
    are exactly those properties and the six named fields; for a number or
    a boolean, which have no such property, it is the bare defaults. *)
Theorem alert_record_of_any_value now data :
  data ≠ VNull → data ≠ VUndefined →
  ∃ record,
    alertData now data = inr (VObj record) ∧
    overlaid record (default_record now (own_enumerable data)) (own_enumerable data) ∧
    dom record = dom (own_enumerable data) ∪ alert_fields ∧
    (own_enumerable data = ∅ → record = default_record now ∅).
Proof. apply alertData_fields. Qed.

(** X11.  Enrichment is idempotent: a record that the enrichment produced,
    enriched again at any later time, comes out unchanged. *)
Theorem alertData_idempotent now later data record :
  alertData now data = inr record →
  alertData later record = inr record.
Proof.
  clear JSON_parse. intros Ha.
  assert (data ≠ VNull) as Hn by (intros ->; discriminate Ha).
  assert (data ≠ VUndefined) as Hu by (intros ->; discriminate Ha).
  destruct (alertData_fields now data Hn Hu) as (r & Ha' & _ & Hdom & _).
  rewrite Ha in Ha'. injection Ha' as ->.
  destruct (alert_record_overlaid later r) as (r' & Hr' & Ho'). rewrite Hr'.
  do 2 f_equal. apply map_eq. intros k. rewrite (Ho' k).
  destruct (r !! k) as [v|] eqn:Hk; [done|].
  apply not_elem_of_dom. rewrite default_record_dom.
  apply not_elem_of_dom in Hk. rewrite Hdom in Hk. set_solver.
Qed.

(** X12.  The clock enters the record exactly when the payload has no
    timestamp field: two enrichments of one payload at different times
    agree if and only if the payload carries a timestamp. *)
Theorem alertData_reads_clock_iff_no_timestamp now1 now2 data :
  data ≠ VNull → data ≠ VUndefined →
  (alertData now1 data = alertData now2 data ↔
   now1 = now2 ∨ is_Some (own_enumerable data !! "timestamp")).
Proof.
  intros Hn Hu.
  destruct (alertData_any now1 data Hn Hu) as (r1 & Ha1 & Ho1).
  destruct (alertData_any now2 data Hn Hu) as (r2 & Ha2 & Ho2).
  rewrite Ha1, Ha2. split.
  - intros [= ->]. destruct (own_enumerable data !! "timestamp") as [v|] eqn:Hts.
    { right. by eexists. }
    left. pose proof (Ho1 "timestamp") as H1. pose proof (Ho2 "timestamp") as H2.
    rewrite Hts in H1, H2. rewrite H1 in H2. by injection H2.
  - intros [->|[v Hts]].
    { do 2 f_equal. apply map_eq. intros k. by rewrite (Ho1 k), (Ho2 k). }
    do 2 f_equal. apply map_eq. intros k. rewrite (Ho1 k), (Ho2 k).
    destruct (own_enumerable data !! k) eqn:Hk; [done|].
    assert (k ≠ "timestamp") as Hne by (intros ->; by rewrite Hts in Hk).
    unfold default_record.
    destruct (decide (k = "type")) as [->|]; [by simplify_map_eq|].
    destruct (decide (k = "message")) as [->|]; [by simplify_map_eq|].
    destruct (decide (k = "severity")) as [->|]; [by simplify_map_eq|].
    destruct (decide (k = "current_count")) as [->|]; [by simplify_map_eq|].
    destruct (decide (k = "threshold")) as [->|]; by simplify_map_eq.
Qed.

(** ** The event loop *)

Lemma step_client_emit s id event :
  step s (ClientEmit id event) =
    inr (if decide (connected s id) then
           if String.eqb event "join-inventory-updates" then
             Server (sids (socket_join id "inventory-updates" s).2)
               (trace s ++ [ConsoleLog [LStr ("Client " +:+ id +:+
                                              " joined inventory-updates room")]])
           else if String.eqb event "join-inventory-alerts" then
             Server (sids (socket_join id "inventory-alerts" s).2)
               (trace s ++ [ConsoleLog [LStr ("Client " +:+ id +:+
                                              " joined inventory-alerts room")]])
           else if String.eqb event "leave-inventory-updates" then
             Server (sids (socket_leave id "inventory-updates" s).2)
               (trace s ++ [ConsoleLog [LStr ("Client " +:+ id +:+
                                              " left inventory-updates room")]])
           else if String.eqb event "leave-inventory-alerts" then
             Server (sids (socket_leave id "inventory-alerts" s).2)
               (trace s ++ [ConsoleLog [LStr ("Client " +:+ id +:+
                                              " left inventory-alerts room")]])
           else if String.eqb event "disconnect" then
             Server (sids s)
               (trace s ++ [ConsoleLog [LStr ("Client disconnected: " +:+ id)]])
           else s
         else s).
Proof.
  unfold_step. destruct (decide (connected s id)); [|done].
  repeat match goal with
         | |- context [String.eqb event ?name] =>
             destruct (String.eqb event name); [reflexivity|]
         end.
  reflexivity.
Qed.

Lemma run_app s inputs1 inputs2 :
  run s (inputs1 ++ inputs2) =
    match run s inputs1 with
    | inr s1 => run s1 inputs2
    | inl e => inl e
    end.
Proof.
  revert s. induction inputs1 as [|i inputs1 IH]; intros s; [done|]. cbn.
  destruct (step s i); [done|]. apply IH.
Qed.

Lemma run_extends s inputs :
  ∃ s' new, run s inputs = inr s' ∧ trace s' = trace s ++ new.
Proof.
  revert s. induction inputs as [|i inputs IH]; intros s.
  { exists s, []. by rewrite app_nil_r. }
  destruct s as [table tr].
  destruct (step_extends table i) as (table' & new & Hstep).
  destruct (IH (Server table' (tr ++ new))) as (s' & new' & Hrun & Htrace).
  exists s', (new ++ new'). cbn [run]. rewrite Hstep. split; [exact Hrun|].
  rewrite Htrace. cbn. by rewrite app_assoc.
Qed.

(** X13.  No sequence of inputs ends the process: the loop handles all of
    them, and the trace at the end is the trace at the start with what
    was logged and emitted since added behind it. *)
Theorem run_goes_on_and_trace_grows s inputs :
  ∃ s' new, run s inputs = inr s' ∧ trace s' = trace s ++ new.
Proof. apply run_extends. Qed.

(** X14.  A burst of Redis messages of any length and content (valid,
    undecodable, on unknown channels) is handled to the end and leaves
    the table of rooms as it was before the burst. *)
Theorem redis_burst_keeps_rooms s (burst : list (string * string * string)) :
  ∃ s', run s (redis_messages burst) = inr s' ∧ sids s' = sids s.
Proof.
  revert s. induction burst as [|[[now channel] msg] burst IH]; intros s.
  { by exists s. }
  destruct (step_message s now channel msg) as (new & Hstep & _).
  destruct (IH (Server (sids s) (trace s ++ new))) as (s' & Hrun & Hsids).
  exists s'. cbn. cbn in Hstep. rewrite Hstep. done.
Qed.

(** A turn that is not the connection of [id] leaves a socket [id] that
    is not connected as it is, and sends it nothing. *)
Lemma step_unconnected s i id :
  ¬ connected s id → connects id i = false →
  ∃ s', step s i = inr s' ∧ ¬ connected s' id ∧
        received id (trace s') = received id (trace s).
Proof.
  intros Hid Hi. unfold connected in Hid.
  destruct i as [id0|id0 event|id0|now channel msg].
  - cbn in Hi. apply String.eqb_neq in Hi.
    eexists. split; [apply step_connect|].
    destruct (decide (connected s id0)); [done|]. unfold connected. cbn [sids trace].
    rewrite dom_insert_L, received_app, app_nil_r. split; [|done].
    rewrite elem_of_union, elem_of_singleton. naive_solver.
  - eexists. split; [apply step_client_emit|].
    destruct (decide (connected s id0)) as [Hc|]; [|done]. unfold connected in *.
    assert (id ∉ {[id0]} ∪ dom (sids s)) as Hjoin.
    { rewrite elem_of_union, elem_of_singleton. intros [->|]; done. }
    repeat match goal with
           | |- context [String.eqb event ?name] =>
               destruct (String.eqb event name);
               [cbn [sids trace socket_join socket_leave snd]; rewrite ?dom_insert_L, ?dom_alter_L, received_app, app_nil_r; done|]
           end.
    done.
  - eexists. split; [apply step_disconnect|].
    destruct (decide (connected s id0)); [|done]. unfold connected. cbn [sids trace].
    rewrite dom_delete_L, received_app, app_nil_r. split; [|done].
    rewrite elem_of_difference. naive_solver.
  - destruct (step_message_received s now channel msg) as (new & Hstep & Hrecv).
    eexists. split; [exact Hstep|]. unfold connected. cbn [sids trace]. split; [done|].
    rewrite received_app. destruct (Hrecv id) as [Hnone _].
    rewrite Hnone by done. by rewrite app_nil_r.
Qed.

Lemma run_unconnected s inputs id :
  ¬ connected s id → Forall (λ i, connects id i = false) inputs →
  ∃ s', run s inputs = inr s' ∧ ¬ connected s' id ∧
        received id (trace s') = received id (trace s).
Proof.
  intros Hid Hinputs. revert s Hid.
  induction Hinputs as [|i inputs Hi _ IH]; intros s Hid.
  { by exists s. }
  destruct (step_unconnected s i id Hid Hi) as (s1 & Hstep & Hid1 & Hrecv1).
  destruct (IH s1 Hid1) as (s' & Hrun & Hid' & Hrecv').
  exists s'. cbn [run]. rewrite Hstep. split; [exact Hrun|].
  split; [exact Hid'|]. by rewrite Hrecv'.
Qed.

(** X15.  After its disconnection a socket is sent nothing more, whatever
    the inputs that follow and however many, as long as it does not
    connect again. *)
Theorem disconnected_socket_is_sent_nothing s id inputs :
  Forall (λ i, connects id i = false) inputs →
  ∃ s', run s (Disconnect id :: inputs) = inr s' ∧
        ¬ connected s' id ∧
        received id (trace s') = received id (trace s).
Proof.
  intros Hinputs. cbn [run]. rewrite step_disconnect.
  destruct (decide (connected s id)) as [Hc|Hc].
  - destruct (run_unconnected
                (Server (delete id (sids s))
                   (trace s ++ [ConsoleLog [LStr ("Client disconnected: " +:+ id)]]))
                inputs id) as (s' & Hrun & Hid' & Hrecv); [|done|].
    { unfold connected. cbn [sids]. rewrite dom_delete_L, elem_of_difference,
        elem_of_singleton. naive_solver. }
    exists s'. split; [exact Hrun|]. split; [exact Hid'|].
    rewrite Hrecv. cbn [trace]. by rewrite received_app, app_nil_r.
  - by apply run_unconnected.
Qed.

(** ** Rooms *)

Lemma rooms_of_connected s id :
  connected s id → sids s !! id = Some (rooms_of s id).
Proof.
  clear JSON_parse. unfold connected, rooms_of. rewrite elem_of_dom.
  by intros [rs ->].
Qed.

Lemma step_bounded s i s' :
  rooms_bounded (sids s) → step s i = inr s' → rooms_bounded (sids s').
Proof.
  intros Hb Hstep. destruct i as [id0|id0 event|id0|now channel msg].
  - rewrite step_connect in Hstep. injection Hstep as <-.
    destruct (decide (connected s id0)); [done|]. cbn [sids].
    intros id rs. rewrite lookup_insert. case_decide as Hid.
    + intros [= <-]. subst id. set_solver.
    + apply Hb.
  - rewrite step_client_emit in Hstep. injection Hstep as <-.
    destruct (decide (connected s id0)) as [Hc|]; [|done].
    pose proof (Hb id0 _ (rooms_of_connected s id0 Hc)) as Hb0.
    assert (∀ room, room = "inventory-updates" ∨ room = "inventory-alerts" →
            rooms_bounded (sids (socket_join id0 room s).2)) as Hjoin.
    { intros room Hroom id rs. cbn. rewrite lookup_insert. case_decide as Hid.
      - intros [= <-]. subst id. set_solver.
      - apply Hb. }
    assert (∀ room, rooms_bounded (sids (socket_leave id0 room s).2)) as Hleave.
    { intros room id rs. cbn. rewrite lookup_alter. case_decide as Hid.
      - subst id. rewrite (rooms_of_connected s id0 Hc). cbn. intros [= <-].
        set_solver.
      - apply Hb. }
    repeat match goal with
           | |- context [String.eqb event ?name] =>
               destruct (String.eqb event name); [first [apply Hjoin; by auto
                                                        |apply Hleave|exact Hb]|]
           end.
    exact Hb.
  - rewrite step_disconnect in Hstep. injection Hstep as <-.
    destruct (decide (connected s id0)); [|done]. cbn [sids].
    intros id rs. rewrite lookup_delete. case_decide; [done|apply Hb].
  - destruct (step_message s now channel msg) as (new & Hnew & _).
    rewrite Hnew in Hstep. by injection Hstep as <-.
Qed.

Lemma run_bounded s inputs s' :
  rooms_bounded (sids s) → run s inputs = inr s' → rooms_bounded (sids s').
Proof.
  revert s. induction inputs as [|i inputs IH]; intros s Hb Hrun.
  { by injection Hrun as <-. }
  cbn [run] in Hrun. destruct (step s i) as [e|s1] eqn:Hstep; [done|].
  eapply IH; [|exact Hrun]. by eapply step_bounded.
Qed.

(** X16.  Started with no socket, the server never has a socket in a
    room other than the room of its own id, 'inventory-updates' and
    'inventory-alerts', whatever the inputs. *)
Theorem rooms_stay_within_the_inventory_rooms inputs :
  ∃ s', run (Server ∅ []) inputs = inr s' ∧
        ∀ id room, in_room s' id room →
          room = id ∨ room = "inventory-updates" ∨ room = "inventory-alerts".
Proof.
  destruct (run_extends (Server ∅ []) inputs) as (s' & _ & Hrun & _).
  exists s'. split; [exact Hrun|]. intros id room Hin.
  assert (rooms_bounded (sids s')) as Hb.
  { eapply run_bounded; [|exact Hrun]. intros id' rs Hl. cbn [sids] in Hl.
    by rewrite lookup_empty in Hl. }
  unfold in_room, rooms_of in Hin.
  destruct (sids s' !! id) as [rs|] eqn:Hid; [|by apply elem_of_empty in Hin].
  specialize (Hb id rs Hid). cbn in Hin. set_solver.
Qed.

(** X17.  A join or leave request of a socket changes nothing but the
    membership of that socket in the room of the request: every other
    socket keeps its entry, the socket keeps its other rooms, and the set
    of connected sockets stays the same. *)
Theorem room_request_touches_one_membership s id event room :
  connected s id →
  (event, room) ∈ join_requests ++ leave_requests →
  ∃ s', step s (ClientEmit id event) = inr s' ∧
        dom (sids s') = dom (sids s) ∧
        (∀ id', id' ≠ id → sids s' !! id' = sids s !! id') ∧
        (∀ room', room' ≠ room → in_room s' id room' ↔ in_room s id room').
Proof.
  intros Hc Hev. apply elem_of_app in Hev as [Hev|Hev]; eexists.
  - split; [by apply step_join|]. cbn [sids socket_join snd].
    split; [|split].
    + rewrite dom_insert_L. unfold connected in Hc. set_solver.
    + intros id' Hid. by rewrite lookup_insert_ne.
    + intros room' Hroom. unfold in_room at 1, rooms_of at 1. cbn [sids].
      rewrite lookup_insert_eq. cbn. unfold in_room. set_solver.
  - split; [by apply step_leave|]. cbn [sids socket_leave snd].
    split; [|split].
    + by rewrite dom_alter_L.
    + intros id' Hid. by rewrite lookup_alter_ne.
    + intros room' Hroom. unfold in_room, rooms_of. cbn [sids].
      rewrite lookup_alter_eq. destruct (sids s !! id); cbn; set_solver.
Qed.

(** X18.  Join then leave, for a room the socket is not in, and leave
    then join, for a room it is in, bring the table of rooms back to what
    it was. *)
Theorem join_and_leave_undo_each_other s id join leave room :
  connected s id →
  (join, room) ∈ join_requests →
  (leave, room) ∈ leave_requests →
  (¬ in_room s id room →
   ∃ s', run s [ClientEmit id join; ClientEmit id leave] = inr s' ∧ sids s' = sids s) ∧
  (in_room s id room →
   ∃ s', run s [ClientEmit id leave; ClientEmit id join] = inr s' ∧ sids s' = sids s).
Proof.
  intros Hc Hjoin Hleave. pose proof (rooms_of_connected s id Hc) as Hrs.
  assert (∀ table t, id ∈ dom table → connected (Server table t) id) as Hcon by done.
  split; intros Hin; eexists; cbn [run].
  - rewrite (step_join s id join room Hc Hjoin).
    rewrite (step_leave _ id leave room); [|apply Hcon|exact Hleave].
    2:{ cbn. rewrite dom_insert_L. unfold connected in Hc. set_solver. }
    split; [reflexivity|]. cbn [sids socket_join socket_leave snd].
    rewrite alter_insert_eq. apply insert_id. rewrite Hrs. f_equal.
    unfold in_room in Hin. set_solver.
  - rewrite (step_leave s id leave room Hc Hleave).
    rewrite (step_join _ id join room); [|apply Hcon|exact Hjoin].
    2:{ cbn. by rewrite dom_alter_L. }
    split; [reflexivity|]. cbn [sids socket_join socket_leave snd].
    unfold rooms_of at 1. cbn [sids]. rewrite lookup_alter_eq, insert_alter_eq.
    apply insert_id. rewrite Hrs. cbn. f_equal. unfold in_room in Hin.
    apply set_eq. intros r. rewrite elem_of_union, elem_of_difference,
      elem_of_singleton. destruct (decide (r = room)); naive_solver.
Qed.

(** X20.  The disconnection of a socket discards all its memberships and
    nothing else: it is in no room afterwards, the other sockets keep
    their entries, and when it connects again it is in the room of its id
    only, not in the rooms it had joined. *)
Theorem disconnect_discards_memberships s id :
  connected s id →
  ∃ s1 s2,
    step s (Disconnect id) = inr s1 ∧
    ¬ connected s1 id ∧
    (∀ room, ¬ in_room s1 id room) ∧
    (∀ id', id' ≠ id → sids s1 !! id' = sids s !! id') ∧
    step s1 (Connect id) = inr s2 ∧
    rooms_of s2 id = {[ id ]}.
Proof.
  intros Hc. eexists _, _. split.
  { rewrite step_disconnect. by rewrite decide_True. }
  assert (∀ t, ¬ connected (Server (delete id (sids s)) t) id) as Hgone.
  { intros t. unfold connected. cbn. rewrite dom_delete_L. set_solver. }
  split; [apply Hgone|]. split; [|split; [|split]].
  - intros room. unfold in_room, rooms_of. cbn. rewrite lookup_delete_eq. cbn.
    set_solver.
  - intros id' Hid. cbn. by rewrite lookup_delete_ne.
  - rewrite step_connect. rewrite decide_False by apply Hgone. reflexivity.
  - unfold rooms_of. cbn. by rewrite lookup_insert_eq.
Qed.

(** X21.  A connection followed by the disconnection of the same socket
    leaves the table of rooms as it was. *)
Theorem connect_then_disconnect_restores_rooms s id :
  ¬ connected s id →
  ∃ s', run s [Connect id; Disconnect id] = inr s' ∧ sids s' = sids s.
Proof.
  intros Hc. eexists. cbn [run]. rewrite step_connect, decide_False by done.
  rewrite step_disconnect, decide_True.
  2:{ unfold connected. cbn. rewrite dom_insert_L. set_solver. }
  split; [reflexivity|]. cbn. apply delete_insert_id. by apply not_elem_of_dom.
Qed.

(** X22.  A connected socket that has joined no room is still sent every
    update and every alert, once each: after a message on 'inventory'
    and one on 'inventory-alerts' it has been sent the decoded update and
    the enriched alert, in that order. *)
Theorem socket_outside_rooms_is_sent_one_of_each
    s id now1 msg1 update now2 msg2 payload :
  connected s id →
  ¬ in_room s id "inventory-updates" →
  ¬ in_room s id "inventory-alerts" →
  JSON_parse msg1 = inr update →
  JSON_parse msg2 = inr payload →
  payload ≠ VNull → payload ≠ VUndefined →
  ∃ s' alert,
    run s [RedisMessage now1 "inventory" msg1;
           RedisMessage now2 "inventory-alerts" msg2] = inr s' ∧
    alertData now2 payload = inr alert ∧
    received id (trace s') =
      received id (trace s) ++ [("inventory-update", update); ("inventory-alert", alert)].
Proof.
  intros Hc Hu Ha Hp1 Hp2 Hn Hund.
  destruct (alertData_returns now2 payload Hn Hund) as [record Hrecord].
  eexists _, _. cbn [run].
  rewrite (step_adds s (RedisMessage now1 "inventory" msg1) _
             (on_message_inventory s now1 msg1 update Hp1)).
  erewrite (step_adds _ (RedisMessage now2 "inventory-alerts" msg2)).
  2:{ eapply on_message_alert; [exact Hp2|exact Hrecord]. }
  split; [reflexivity|]. split; [exact Hrecord|].
  cbn [trace sids]. rewrite !received_app.
  rewrite (received_double s id "inventory-updates") by done.
  rewrite (received_double s id "inventory-alerts") by done.
  rewrite !decide_False by done. by rewrite <- app_assoc.
Qed.

(** ** The handler and the clock *)

Lemma alertData_timed_now clock data t :
  alertData_timed clock data t =
    match alertData (clock (consulted t)) data with
    | inl e => (inl e, t)
    | inr record =>
        (inr record, Timed (process t) (after_enrichment data (consulted t)))
    end.
Proof.
  clear JSON_parse. destruct t as [s n].
  destruct data; try reflexivity;
    unfold alertData_timed, alertData, after_enrichment, reads_clock, or_else,
      mbind, T_bind, result_bind, untimed, lift, ret, mret, T_ret, get; cbn;
    match goal with
    | |- context [ToBoolean ?v] => destruct (ToBoolean v)
    end; reflexivity.
Qed.

(** The handler with [now] is the handler with the clock, for [now] the
    next reading of the clock. *)
Lemma on_message_timed_now clock channel msg t :
  on_message_timed clock channel msg t =
    match on_message (clock (consulted t)) channel msg (process t) with
    | (r, s) => (r, Timed s (after_message channel msg (consulted t)))
    end.
Proof.
  destruct t as [s n].
  unfold on_message_timed, on_message, after_message, try_catch_timed, try_catch.
  unfold mbind at 1 2 3 4. unfold T_bind, M_bind, bind.
  unfold untimed at 1 2. cbn [process consulted].
  destruct (JSON_parse msg) as [e|data]; [reflexivity|]. cbn [lift ret throw].
  unfold console_log at 1 3, perform.
  destruct (String.eqb channel "inventory"); [reflexivity|].
  destruct (String.eqb channel "inventory-alerts"); [|reflexivity].
  unfold mbind. unfold T_bind, M_bind, bind. rewrite alertData_timed_now.
  cbn [process consulted]. unfold lift.
  destruct data; reflexivity.
Qed.

(** C10, confirmed.  For one alert message the enrichment is evaluated a
    single time: the clock is consulted once if the payload has no truthy
    timestamp and not at all otherwise, whatever the clock reads at later
    consultations.  The record so computed, the defaults (with the reading
    of that one consultation as timestamp) overlaid by the payload, is the
    payload of both emissions, so that a socket in room 'inventory-alerts'
    is sent two packets equal field for field, timestamp included; when
    the payload has no timestamp field, the timestamp of both is the
    reading of that one consultation. *)
Theorem alert_emissions_carry_one_record clock t msg data :
  JSON_parse msg = inr data → data ≠ VNull → data ≠ VUndefined →
  ∃ new record,
    on_message_timed clock "inventory-alerts" msg t =
      (inr (), Timed (Server (sids (process t)) (trace (process t) ++ new))
                 (if reads_clock data then S (consulted t) else consulted t)) ∧
    emissions new =
      [Emit Broadcast "inventory-alert" (VObj record) (dom (sids (process t)));
       Emit (ToRoom "inventory-alerts") "inventory-alert" (VObj record)
         (members "inventory-alerts" (sids (process t)))] ∧
    step (process t) (RedisMessage (clock (consulted t)) "inventory-alerts" msg) =
      inr (Server (sids (process t)) (trace (process t) ++ new)) ∧
    overlaid record
      (default_record (clock (consulted t)) (own_enumerable data))
      (own_enumerable data) ∧
    (own_enumerable data !! "timestamp" = None →
     record !! "timestamp" = Some (VStr (clock (consulted t)))) ∧
    ∀ id, connected (process t) id → in_room (process t) id "inventory-alerts" →
      received id new =
        [("inventory-alert", VObj record); ("inventory-alert", VObj record)].
Proof.
  intros Hp Hn Hu.
  destruct (alertData_any (clock (consulted t)) data Hn Hu) as (record & Ha & Ho).
  eexists _, record. split.
  { rewrite on_message_timed_now.
    rewrite (on_message_alert (process t) _ msg data (VObj record) Hp Ha).
    unfold after_message, after_enrichment. rewrite Hp. cbn.
    by destruct data. }
  split; [reflexivity|]. split.
  { apply step_adds. by apply on_message_alert. }
  split; [exact Ho|]. split.
  - intros Hts. by rewrite (Ho "timestamp"), Hts.
  - intros id Hc Hr. rewrite received_double by done. by destruct (decide _).
Qed.

End Bridge.

(** * The properties on concrete traffic

    The decoder [Json.parse] in the place of [JSON.parse], the two sockets
    of [two_clients], and the sample payloads. *)

(** A session: two sockets connect, one joins a room, an update is
    dispatched, a broken message is dropped, the member leaves, and the
    next update goes to the remaining socket. *)
Example session :
  run Json.parse (Server ∅ [])
    [Connect "alice"; Connect "bob";
     ClientEmit "alice" "join-inventory-updates";
     RedisMessage noon "inventory" stock_text;
     RedisMessage noon "inventory" "{sku}";
     Disconnect "alice";
     RedisMessage noon "inventory" stock_text] =
  inr (Server {[ "bob" := {[ "bob" ]} ]}
    [ConsoleLog [LStr "Client connected: alice"];
     ConsoleLog [LStr "Client connected: bob"];
     ConsoleLog [LStr "Client alice joined inventory-updates room"];
     ConsoleLog [LStr "Received message from inventory:"; LVal (VObj stock)];
     Emit Broadcast "inventory-update" (VObj stock) {[ "alice"; "bob" ]};
     Emit (ToRoom "inventory-updates") "inventory-update" (VObj stock) {[ "alice" ]};
     ConsoleError [LStr "Error parsing message from Redis:";
                   LErr (SyntaxError "{sku} is not valid JSON")];
     ConsoleLog [LStr "Raw message:"; LStr "{sku}"];
     ConsoleLog [LStr "Client disconnected: alice"];
     ConsoleLog [LStr "Received message from inventory:"; LVal (VObj stock)];
     Emit Broadcast "inventory-update" (VObj stock) {[ "bob" ]};
     Emit (ToRoom "inventory-updates") "inventory-update" (VObj stock) ∅]).
Proof. vm_compute. reflexivity. Qed.

(** An alert whose payload is the JSON string "ok": the spread copies its
    two characters. *)
Example alert_of_string :
  alertData noon (VStr "ok") =
    inr (VObj {[ "type" := VStr "count_exceeded";
                 "message" := VStr "Item count exceeded the limit.";
                 "current_count" := VUndefined;
                 "threshold" := VUndefined;
                 "severity" := VStr "warning";
                 "timestamp" := VStr noon;
                 "0" := VStr "o";
                 "1" := VStr "k" ]}).
Proof. vm_compute. reflexivity. Qed.

(** The fallbacks of [||] show when the payload lacks the field; a field
    that is there is emitted as it is, falsy or not. *)
Example alert_of_falsy_fields :
  alertData noon (VObj {[ "message" := VStr ""; "severity" := VNum 0;
                          "timestamp" := VNull; "type" := VBool false ]}) =
    inr (VObj {[ "type" := VBool false;
                 "message" := VStr "";
                 "current_count" := VUndefined;
                 "threshold" := VUndefined;
                 "severity" := VNum 0;
                 "timestamp" := VNull ]}).
Proof. vm_compute. reflexivity. Qed.

Lemma inventory_message_emitted_twice_witness :
  Json.parse stock_text = inr (VObj stock) ∧
  ∃ new everyone room_members,
    step Json.parse two_clients (RedisMessage noon "inventory" stock_text) =
      inr (Server (sids two_clients) (trace two_clients ++ new)) ∧
    emissions new =
      [Emit Broadcast "inventory-update" (VObj stock) everyone;
       Emit (ToRoom "inventory-updates") "inventory-update" (VObj stock) room_members] ∧
    (∀ id, id ∈ everyone ↔ connected two_clients id) ∧
    (∀ id, id ∈ room_members ↔ in_room two_clients id "inventory-updates") ∧
    (∀ id, connected two_clients id → in_room two_clients id "inventory-updates" →
       received id new =
         [("inventory-update", VObj stock); ("inventory-update", VObj stock)]) ∧
    (∀ id, connected two_clients id → ¬ in_room two_clients id "inventory-updates" →
       received id new = [("inventory-update", VObj stock)]).
Proof.
  assert (Json.parse stock_text = inr (VObj stock)) as Hp by (vm_compute; reflexivity).
  split; [exact Hp|].
  exact (inventory_message_emitted_twice Json.parse two_clients noon stock_text stock Hp).
Defined.

Lemma alert_is_defaults_overlaid_by_payload_witness :
  Json.parse custom_text = inr (VObj custom) ∧
  ∃ record,
    step Json.parse two_clients (RedisMessage noon "inventory-alerts" custom_text) =
      inr (Server (sids two_clients)
        [ConsoleLog [LStr "Received message from inventory-alerts:"; LVal (VObj custom)];
         Emit Broadcast "inventory-alert" (VObj record) {[ "alice"; "bob" ]};
         Emit (ToRoom "inventory-alerts") "inventory-alert" (VObj record) {[ "alice" ]}]) ∧
    record !! "severity" = Some (VStr "critical") ∧
    record !! "type" = Some (VStr "custom") ∧
    record !! "message" = Some (VStr "Item count exceeded the limit.") ∧
    record !! "timestamp" = Some (VStr noon) ∧
    record !! "current_count" = Some VUndefined ∧
    record !! "threshold" = Some VUndefined.
Proof.
  assert (Json.parse custom_text = inr (VObj custom)) as Hp by (vm_compute; reflexivity).
  split; [exact Hp|].
  destruct (alert_is_defaults_overlaid_by_payload Json.parse two_clients noon
              custom_text custom Hp) as (record & Hstep & _ & Hwins & Hfills & _).
  exists record. split; [rewrite Hstep; vm_compute; reflexivity|].
  rewrite (Hwins "severity" (VStr "critical")), (Hwins "type" (VStr "custom")),
    (Hfills "message"), (Hfills "timestamp"), (Hfills "current_count"),
    (Hfills "threshold") by reflexivity.
  repeat split; reflexivity.
Defined.

Lemma alert_with_counts_only_gets_defaults_witness :
  Json.parse counts_text = inr (VObj counts) ∧
  ∃ record,
    step Json.parse two_clients (RedisMessage noon "inventory-alerts" counts_text) =
      inr (Server (sids two_clients)
        [ConsoleLog [LStr "Received message from inventory-alerts:"; LVal (VObj counts)];
         Emit Broadcast "inventory-alert" (VObj record) {[ "alice"; "bob" ]};
         Emit (ToRoom "inventory-alerts") "inventory-alert" (VObj record) {[ "alice" ]}]) ∧
    record !! "message" = Some (VStr "Item count exceeded the limit.") ∧
    record !! "severity" = Some (VStr "warning") ∧
    record !! "type" = Some (VStr "count_exceeded") ∧
    record !! "current_count" = Some (VNum 150) ∧
    record !! "threshold" = Some (VNum 100) ∧
    record !! "timestamp" = Some (VStr noon).
Proof.
  assert (Json.parse counts_text = inr (VObj counts)) as Hp by (vm_compute; reflexivity).
  split; [exact Hp|].
  destruct (alert_with_counts_only_gets_defaults Json.parse two_clients noon
              counts_text counts Hp) as (record & Hstep & Hfields);
    try reflexivity.
  exists record. split; [rewrite Hstep; vm_compute; reflexivity|exact Hfields].
Defined.

Lemma undecodable_message_logged_and_dropped_witness :
  Json.parse "not json" = inl (SyntaxError "not json is not valid JSON") ∧
  step Json.parse two_clients (RedisMessage noon "inventory" "not json") =
    inr (Server (sids two_clients)
      [ConsoleError [LStr "Error parsing message from Redis:";
                     LErr (SyntaxError "not json is not valid JSON")];
       ConsoleLog [LStr "Raw message:"; LStr "not json"]]) ∧
  ∃ after,
    run Json.parse two_clients
      [RedisMessage noon "inventory" "not json";
       RedisMessage noon "inventory" stock_text] = inr after ∧
    received "alice" (trace after) =
      [("inventory-update", VObj stock); ("inventory-update", VObj stock)] ∧
    received "bob" (trace after) = [("inventory-update", VObj stock)].
Proof.
  assert (Json.parse "not json" = inl (SyntaxError "not json is not valid JSON"))
    as Hp by (vm_compute; reflexivity).
  split; [exact Hp|].
  destruct (undecodable_message_logged_and_dropped Json.parse two_clients noon
              "inventory" "not json" _ Hp) as (new & Hstep & -> & _ & _ & Hrun & _).
  split; [exact Hstep|].
  eexists. split; [rewrite Hrun; vm_compute; reflexivity|].
  split; vm_compute; reflexivity.
Defined.

(** C4, as stated, fails: on channel 'inventory-alerts' the text
    [not json] is logged and the channel is not; the lines are those
    logged for the same text on channel 'inventory'. *)
Lemma undecodable_message_channel_not_logged :
  ∃ new,
    step Json.parse two_clients (RedisMessage noon "inventory-alerts" "not json") =
      inr (Server (sids two_clients) (trace two_clients ++ new)) ∧
    step Json.parse two_clients (RedisMessage noon "inventory" "not json") =
      inr (Server (sids two_clients) (trace two_clients ++ new)) ∧
    new = [ConsoleError [LStr "Error parsing message from Redis:";
                         LErr (SyntaxError "not json is not valid JSON")];
           ConsoleLog [LStr "Raw message:"; LStr "not json"]] ∧
    logs "not json" new = true ∧
    logs "inventory-alerts" new = false.
Proof.
  eexists. split; [vm_compute; reflexivity|]. repeat split; reflexivity.
Qed.

Lemma unknown_channel_emits_nothing_witness :
  Json.parse stock_text = inr (VObj stock) ∧
  "orders" ≠ "inventory" ∧ "orders" ≠ "inventory-alerts" ∧
  ∃ new,
    step Json.parse two_clients (RedisMessage noon "orders" stock_text) =
      inr (Server (sids two_clients) (trace two_clients ++ new)) ∧
    new = [ConsoleLog [LStr "Received message from orders:"; LVal (VObj stock)]] ∧
    emissions new = [] ∧
    ∀ id, received id new = [].
Proof.
  assert (Json.parse stock_text = inr (VObj stock)) as Hp by (vm_compute; reflexivity).
  split; [exact Hp|]. split; [discriminate|]. split; [discriminate|].
  apply (unknown_channel_emits_nothing Json.parse two_clients noon "orders"
           stock_text (VObj stock) Hp); discriminate.
Defined.

Lemma join_is_idempotent_and_leave_of_absent_is_noop_witness :
  connected two_clients "bob" ∧
  ∃ s1 s2 s3,
    step Json.parse two_clients (ClientEmit "bob" "join-inventory-alerts") = inr s1 ∧
    step Json.parse s1 (ClientEmit "bob" "join-inventory-alerts") = inr s2 ∧
    step Json.parse s2 (ClientEmit "bob" "leave-inventory-alerts") = inr s3 ∧
    in_room s1 "bob" "inventory-alerts" ∧
    sids s2 = sids s1 ∧
    ¬ in_room s3 "bob" "inventory-alerts".
Proof.
  assert (connected two_clients "bob") as Hc.
  { unfold connected. apply elem_of_dom. eexists. reflexivity. }
  split; [exact Hc|].
  apply (join_is_idempotent_and_leave_of_absent_is_noop Json.parse two_clients "bob" Hc).
Defined.

Lemma falsy_field_of_payload_is_emitted_witness :
  Json.parse blank_severity_text = inr (VObj blank_severity) ∧
  fallback noon "severity" = Some (VStr "warning") ∧
  ∃ record,
    step Json.parse two_clients
      (RedisMessage noon "inventory-alerts" blank_severity_text) =
      inr (Server (sids two_clients)
        [ConsoleLog [LStr "Received message from inventory-alerts:";
                     LVal (VObj blank_severity)];
         Emit Broadcast "inventory-alert" (VObj record) {[ "alice"; "bob" ]};
         Emit (ToRoom "inventory-alerts") "inventory-alert" (VObj record) {[ "alice" ]}]) ∧
    record !! "severity" = Some (VStr "").
Proof.
  assert (Json.parse blank_severity_text = inr (VObj blank_severity)) as Hp
    by (vm_compute; reflexivity).
  split; [exact Hp|]. split; [reflexivity|].
  destruct (falsy_field_of_payload_is_emitted Json.parse two_clients noon
              blank_severity_text blank_severity "severity" (VStr "warning") Hp
              eq_refl) as (record & Hstep & Hkept & _).
  exists record. split; [rewrite Hstep; vm_compute; reflexivity|].
  apply Hkept; reflexivity.
Defined.

(** C8, as stated, fails: for the payload {severity: ''} the severity
    emitted is the empty string, not 'warning'. *)
Lemma blank_severity_is_not_defaulted :
  ∃ record,
    step Json.parse two_clients
      (RedisMessage noon "inventory-alerts" blank_severity_text) =
      inr (Server (sids two_clients)
        [ConsoleLog [LStr "Received message from inventory-alerts:";
                     LVal (VObj blank_severity)];
         Emit Broadcast "inventory-alert" (VObj record) {[ "alice"; "bob" ]};
         Emit (ToRoom "inventory-alerts") "inventory-alert" (VObj record) {[ "alice" ]}]) ∧
    blank_severity !! "severity" = Some (VStr "") ∧
    ToBoolean (VStr "") = false ∧
    record !! "severity" = Some (VStr "") ∧
    record !! "severity" ≠ Some (VStr "warning").
Proof.
  eexists. split; [vm_compute; reflexivity|].
  split; [reflexivity|]. split; [reflexivity|]. split; [reflexivity|].
  vm_compute. discriminate.
Qed.

Lemma null_dropped_on_alerts_passed_on_inventory_witness :
  Json.parse "null" = inr VNull ∧
  (∃ new,
     step Json.parse two_clients (RedisMessage noon "inventory-alerts" "null") =
       inr (Server (sids two_clients) (trace two_clients ++ new)) ∧
     new =
       [ConsoleLog [LStr "Received message from inventory-alerts:"; LVal VNull];
        ConsoleError [LStr "Error parsing message from Redis:";
                      LErr (TypeError "Cannot read properties of null (reading 'message')")];
        ConsoleLog [LStr "Raw message:"; LStr "null"]] ∧
     emissions new = [] ∧
     ∀ id, received id new = []) ∧
  (∃ new,
     step Json.parse two_clients (RedisMessage noon "inventory" "null") =
       inr (Server (sids two_clients) (trace two_clients ++ new)) ∧
     emissions new =
       [Emit Broadcast "inventory-update" VNull (dom (sids two_clients));
        Emit (ToRoom "inventory-updates") "inventory-update" VNull
          (members "inventory-updates" (sids two_clients))] ∧
     ∀ id, connected two_clients id → received id new ≠ []).
Proof.
  assert (Json.parse "null" = inr VNull) as Hp by (vm_compute; reflexivity).
  split; [exact Hp|].
  exact (null_dropped_on_alerts_passed_on_inventory Json.parse two_clients noon Hp).
Defined.

(** * The address of the machine *)

Lemma getLocalIP_inner_loop (acc : list string) (infos : list net_info) :
  foldl (λ results net,
           if external_ipv4 net then results ++ [address net] else results)
        acc infos =
    acc ++ (address <$> List.filter external_ipv4 infos).
Proof.
  revert acc. induction infos as [|net infos IH]; intros acc; cbn.
  - by rewrite app_nil_r.
  - rewrite IH. destruct (external_ipv4 net); [|done].
    by rewrite <- app_assoc.
Qed.

Lemma getLocalIP_outer_loop (acc : list string) (nets : list (string * list net_info)) :
  foldl (λ results entry,
           foldl (λ results net,
                    if external_ipv4 net then results ++ [address net] else results)
                 results entry.2)
        acc nets =
    acc ++ external_addresses nets.
Proof.
  revert acc. induction nets as [|entry nets IH]; intros acc; cbn.
  - by rewrite app_nil_r.
  - rewrite IH, getLocalIP_inner_loop. by rewrite <- app_assoc.
Qed.

Lemma getLocalIP_unfold (nets : list (string * list net_info)) :
  getLocalIP nets =
    match external_addresses nets with
    | [] => "localhost"
    | first :: _ => if String.eqb first "" then "localhost" else first
    end.
Proof.
  unfold getLocalIP. rewrite getLocalIP_outer_loop. cbn.
  destruct (external_addresses nets) as [|first rest]; [done|]. cbn.
  by destruct (String.eqb first "").
Qed.

(** X1.  [getLocalIP] answers with the first address, in the order of the
    two loops, among the entries that are IPv4 and not internal; it
    answers 'localhost' when there is no such entry and also when that
    first address is the empty string. *)
Theorem getLocalIP_first_external (nets : list (string * list net_info)) :
  getLocalIP nets =
    match external_addresses nets with
    | [] => "localhost"
    | first :: _ => if String.eqb first "" then "localhost" else first
    end.
Proof. apply getLocalIP_unfold. Qed.

Lemma external_addresses_none (nets : list (string * list net_info)) :
  (∀ name infos net, (name, infos) ∈ nets → net ∈ infos → external_ipv4 net = false) →
  external_addresses nets = [].
Proof.
  induction nets as [|[name infos] nets IH]; intros Hnone; [done|].
  change ((address <$> List.filter external_ipv4 infos) ++ external_addresses nets = []).
  rewrite IH.
  2:{ intros name' infos' net Hin. apply (Hnone name' infos' net). by right. }
  rewrite app_nil_r.
  assert (∀ net, net ∈ infos → external_ipv4 net = false) as Hinfos.
  { intros net. apply (Hnone name infos net). by left. }
  clear -Hinfos. induction infos as [|net infos IH]; [done|]. cbn.
  rewrite (Hinfos net) by by left. apply IH. intros net' Hin. apply Hinfos. by right.
Qed.

(** X2.  When no entry of any interface is IPv4 and not internal (no
    interface at all, loopback only, IPv6 only, or a [family] that is not
    the string 'IPv4'), [getLocalIP] answers 'localhost'. *)
Theorem getLocalIP_localhost_without_external (nets : list (string * list net_info)) :
  (∀ name infos net, (name, infos) ∈ nets → net ∈ infos → external_ipv4 net = false) →
  getLocalIP nets = "localhost".
Proof.
  intros Hnone. rewrite getLocalIP_unfold.
  by rewrite external_addresses_none.
Qed.

Lemma elem_of_external_addresses (nets : list (string * list net_info)) a :
  a ∈ external_addresses nets →
  ∃ name infos net,
    (name, infos) ∈ nets ∧ net ∈ infos ∧
    family net = VStr "IPv4" ∧ internal net = false ∧ address net = a.
Proof.
  unfold external_addresses. rewrite list_elem_of_In, in_flat_map.
  intros ([name infos] & Hentry & Ha). cbn in Ha.
  apply list_elem_of_In, list_elem_of_fmap in Ha as (net & -> & Hnet).
  apply list_elem_of_In, filter_In in Hnet as [Hnet Hext].
  exists name, infos, net. split; [by apply list_elem_of_In|].
  split; [by apply list_elem_of_In|].
  unfold external_ipv4 in Hext. apply andb_prop in Hext as [Hfam Hint].
  split; [|split; [by destruct (internal net)|done]].
  unfold is_string in Hfam. destruct (family net); try done.
  by apply String.eqb_eq in Hfam as ->.
Qed.

Lemma getLocalIP_answer (nets : list (string * list net_info)) :
  getLocalIP nets ≠ "" ∧
  (getLocalIP nets = "localhost" ∨
   ∃ name infos net,
     (name, infos) ∈ nets ∧ net ∈ infos ∧
     family net = VStr "IPv4" ∧ internal net = false ∧
     address net = getLocalIP nets).
Proof.
  rewrite getLocalIP_unfold.
  destruct (external_addresses nets) as [|first rest] eqn:Hext.
  { split; [done|by left]. }
  destruct (String.eqb_spec first "") as [->|Hne].
  { split; [done|by left]. }
  split; [done|]. right. apply elem_of_external_addresses.
  rewrite Hext. by left.
Qed.

(** X3.  The answer of [getLocalIP] is never the empty string, and it is
    either 'localhost' or the address of an entry that is IPv4 and not
    internal. *)
Theorem getLocalIP_sound (nets : list (string * list net_info)) :
  getLocalIP nets ≠ "" ∧
  (getLocalIP nets = "localhost" ∨
   ∃ name infos net,
     (name, infos) ∈ nets ∧ net ∈ infos ∧
     family net = VStr "IPv4" ∧ internal net = false ∧
     address net = getLocalIP nets).
Proof. apply getLocalIP_answer. Qed.

(** X4.  An entry that is IPv4, not internal and has a non-empty address
    is the answer when nothing before it passes the test: no entry of an
    earlier interface and no earlier entry of its own interface.  What
    comes after it plays no part. *)
Theorem getLocalIP_skips_to_first_external
    (before after : list (string * list net_info)) name
    (infos_before infos_after : list net_info) (net : net_info) :
  (∀ name' infos' net', (name', infos') ∈ before → net' ∈ infos' →
     external_ipv4 net' = false) →
  (∀ net', net' ∈ infos_before → external_ipv4 net' = false) →
  external_ipv4 net = true →
  address net ≠ "" →
  getLocalIP (before ++ (name, infos_before ++ net :: infos_after) :: after) =
    address net.
Proof.
  intros Hbefore Hinfos Hnet Haddr. rewrite getLocalIP_unfold.
  unfold external_addresses. rewrite flat_map_app.
  fold (external_addresses before). rewrite external_addresses_none by done.
  cbn. rewrite List.filter_app.
  assert (List.filter external_ipv4 infos_before = []) as ->.
  { clear -Hinfos. induction infos_before as [|n l IH]; [done|]. cbn.
    rewrite (Hinfos n) by by left. apply IH. intros n' Hin. apply Hinfos. by right. }
  cbn. rewrite Hnet. cbn.
  by destruct (String.eqb_spec (address net) "").
Qed.

(** X5.  The first entry that passes the test hides every later one
    when its address is the empty string: the answer is 'localhost',
    wherever that entry stands (no entry of an earlier interface and no
    earlier entry of its own interface passing the test) and whatever
    follows it. *)
Theorem getLocalIP_empty_first_address_hides_rest
    (before after : list (string * list net_info)) name
    (infos_before infos_after : list net_info) (net : net_info) :
  (∀ name' infos' net', (name', infos') ∈ before → net' ∈ infos' →
     external_ipv4 net' = false) →
  (∀ net', net' ∈ infos_before → external_ipv4 net' = false) →
  external_ipv4 net = true →
  address net = "" →
  getLocalIP (before ++ (name, infos_before ++ net :: infos_after) :: after) =
    "localhost".
Proof.
  intros Hbefore Hinfos Hnet Haddr. rewrite getLocalIP_unfold.
  unfold external_addresses. rewrite flat_map_app.
  fold (external_addresses before). rewrite external_addresses_none by done.
  cbn. rewrite List.filter_app.
  assert (List.filter external_ipv4 infos_before = []) as ->.
  { clear -Hinfos. induction infos_before as [|n l IH]; [done|]. cbn.
    rewrite (Hinfos n) by by left. apply IH. intros n' Hin. apply Hinfos. by right. }
  cbn. rewrite Hnet. cbn. by rewrite Haddr.
Qed.

Lemma length_append (a b : string) :
  String.length (a +:+ b) = (String.length a + String.length b)%nat.
Proof.
  induction a as [|c a IH]; [done|].
  change (S (String.length (a +:+ b)) = S (String.length a + String.length b)).
  by rewrite IH.
Qed.

Lemma append_empty_r (a b : string) : a +:+ b = b → a = "".
Proof.
  intros Heq. assert (String.length (a +:+ b) = String.length b) as Hlen by by rewrite Heq.
  rewrite length_append in Hlen. destruct a; [done|]. cbn in Hlen. lia.
Qed.

(** X6.  The CORS origins are three, the two loopback origins first; the
    third never has an empty host, and on a machine without an external
    IPv4 address it is the first origin again. *)
Theorem cors_origin_hosts (nets : list (string * list net_info)) :
  (∃ third,
     cors_origin nets = ["http://localhost:3000"; "http://127.0.0.1:3000"; third] ∧
     third ≠ "http://:3000") ∧
  (external_addresses nets = [] →
   cors_origin nets !! 2%nat = cors_origin nets !! 0%nat).
Proof.
  split.
  - eexists. split; [reflexivity|]. intros Heq.
    destruct (getLocalIP_answer nets) as [Hne _]. apply Hne.
    apply (append_empty_r _ ":3000").
    change ("http://" +:+ (getLocalIP nets +:+ ":3000") = "http://" +:+ ":3000") in Heq.
    by apply (inj (String.append "http://")) in Heq.
  - intros Hnone. unfold cors_origin. rewrite getLocalIP_unfold, Hnone.
    reflexivity.
Qed.

Lemma getLocalIP_localhost_without_external_witness :
  (∀ name infos net,
     (name, infos) ∈ [("lo", [NetInfo (VStr "IPv4") true "127.0.0.1"]);
                      ("eth0", [NetInfo (VNum 4) false "10.0.0.7";
                                NetInfo (VStr "IPv6") false "fe80::1"])] →
     net ∈ infos → external_ipv4 net = false) ∧
  getLocalIP [("lo", [NetInfo (VStr "IPv4") true "127.0.0.1"]);
              ("eth0", [NetInfo (VNum 4) false "10.0.0.7";
                        NetInfo (VStr "IPv6") false "fe80::1"])] = "localhost".
Proof.
  assert (∀ name infos net,
     (name, infos) ∈ [("lo", [NetInfo (VStr "IPv4") true "127.0.0.1"]);
                      ("eth0", [NetInfo (VNum 4) false "10.0.0.7";
                                NetInfo (VStr "IPv6") false "fe80::1"])] →
     net ∈ infos → external_ipv4 net = false) as Hnone.
  { intros name infos net Hentry Hnet.
    repeat (apply elem_of_cons in Hentry as [[= -> ->]|Hentry];
            [repeat (apply elem_of_cons in Hnet as [->|Hnet]; [reflexivity|]);
             by apply elem_of_nil in Hnet|]).
    by apply elem_of_nil in Hentry. }
  split; [exact Hnone|].
  exact (getLocalIP_localhost_without_external _ Hnone).
Defined.

Lemma getLocalIP_skips_to_first_external_witness :
  getLocalIP laptop = "192.168.1.100".
Proof.
  apply (getLocalIP_skips_to_first_external
           [("lo", [NetInfo (VStr "IPv4") true "127.0.0.1";
                    NetInfo (VStr "IPv6") true "::1"])]
           [("eth0", [NetInfo (VStr "IPv4") false "10.0.0.7"])]
           "wlan0" [NetInfo (VStr "IPv6") false "fe80::1c2d"] []
           (NetInfo (VStr "IPv4") false "192.168.1.100")).
  - intros name infos net Hentry Hnet.
    apply elem_of_cons in Hentry as [[= -> ->]|Hentry];
      [|by apply elem_of_nil in Hentry].
    repeat (apply elem_of_cons in Hnet as [->|Hnet]; [reflexivity|]).
    by apply elem_of_nil in Hnet.
  - intros net Hnet.
    apply elem_of_cons in Hnet as [->|Hnet]; [reflexivity|].
    by apply elem_of_nil in Hnet.
  - reflexivity.
  - discriminate.
Defined.

Lemma getLocalIP_empty_first_address_hides_rest_witness :
  getLocalIP [("lo", [NetInfo (VStr "IPv4") true "127.0.0.1"]);
              ("eth0", [NetInfo (VStr "IPv6") false "fe80::1";
                        NetInfo (VStr "IPv4") false "";
                        NetInfo (VStr "IPv4") false "10.0.0.7"]);
              ("wlan0", [NetInfo (VStr "IPv4") false "192.168.1.100"])] =
    "localhost".
Proof.
  apply (getLocalIP_empty_first_address_hides_rest
           [("lo", [NetInfo (VStr "IPv4") true "127.0.0.1"])]
           [("wlan0", [NetInfo (VStr "IPv4") false "192.168.1.100"])]
           "eth0" [NetInfo (VStr "IPv6") false "fe80::1"]
           [NetInfo (VStr "IPv4") false "10.0.0.7"]
           (NetInfo (VStr "IPv4") false "")).
  - intros name infos net Hentry Hnet.
    apply elem_of_cons in Hentry as [[= -> ->]|Hentry];
      [|by apply elem_of_nil in Hentry].
    apply elem_of_cons in Hnet as [->|Hnet]; [reflexivity|].
    by apply elem_of_nil in Hnet.
  - intros net Hnet.
    apply elem_of_cons in Hnet as [->|Hnet]; [reflexivity|].
    by apply elem_of_nil in Hnet.
  - reflexivity.
  - reflexivity.
Defined.

(** * The further properties on concrete traffic *)

Lemma connected_two_clients id :
  id ∈ ["alice"; "bob"] → connected two_clients id.
Proof.
  intros Hid. unfold connected. apply elem_of_dom.
  apply elem_of_cons in Hid as [->|Hid]; [eexists; reflexivity|].
  apply elem_of_cons in Hid as [->|Hid]; [eexists; reflexivity|].
  by apply elem_of_nil in Hid.
Defined.

Lemma inventory_passes_any_value_witness :
  Json.parse "[1, true]" = inr (VArr [VNum 1; VBool true]) ∧
  ∃ new,
    step Json.parse two_clients (RedisMessage noon "inventory" "[1, true]") =
      inr (Server (sids two_clients) (trace two_clients ++ new)) ∧
    received "alice" new =
      [("inventory-update", VArr [VNum 1; VBool true]);
       ("inventory-update", VArr [VNum 1; VBool true])] ∧
    received "bob" new = [("inventory-update", VArr [VNum 1; VBool true])].
Proof.
  assert (Json.parse "[1, true]" = inr (VArr [VNum 1; VBool true])) as Hp
    by (vm_compute; reflexivity).
  split; [exact Hp|].
  destruct (inventory_passes_any_value Json.parse two_clients noon "[1, true]" _ Hp)
    as (new & Hstep & _ & Hrecv).
  exists new. split; [exact Hstep|].
  rewrite (Hrecv "alice") by (apply connected_two_clients; by left).
  rewrite (Hrecv "bob") by (apply connected_two_clients; right; by left).
  split; vm_compute; reflexivity.
Defined.

Lemma alert_record_of_any_value_witness :
  VNum 42 ≠ VNull ∧ VNum 42 ≠ VUndefined ∧
  alertData noon (VNum 42) = inr (VObj (default_record noon ∅)).
Proof.
  split; [discriminate|]. split; [discriminate|].
  destruct (alert_record_of_any_value noon (VNum 42)) as (record & Ha & _ & _ & Hbare);
    [discriminate|discriminate|].
  rewrite Ha, Hbare by reflexivity. reflexivity.
Defined.

Lemma alertData_idempotent_witness :
  (∃ record, alertData noon (VObj counts) = inr record ∧
             alertData "2030-01-01T00:00:00.000Z" record = inr record).
Proof.
  destruct (alertData_returns noon (VObj counts)) as [record Ha];
    [discriminate|discriminate|].
  exists (VObj record). split; [exact Ha|].
  exact (alertData_idempotent noon "2030-01-01T00:00:00.000Z" (VObj counts) _ Ha).
Defined.

Lemma alertData_reads_clock_iff_no_timestamp_witness :
  VObj counts ≠ VNull ∧ VObj counts ≠ VUndefined ∧
  alertData noon (VObj counts) ≠ alertData "2030-01-01T00:00:00.000Z" (VObj counts).
Proof.
  split; [discriminate|]. split; [discriminate|]. intros Heq.
  apply (alertData_reads_clock_iff_no_timestamp noon "2030-01-01T00:00:00.000Z"
           (VObj counts)) in Heq as [Heq|[v Hv]]; discriminate.
Defined.

Lemma disconnected_socket_is_sent_nothing_witness :
  Forall (λ i, connects "alice" i = false)
    [RedisMessage noon "inventory" stock_text;
     ClientEmit "alice" "join-inventory-alerts";
     RedisMessage noon "inventory-alerts" counts_text] ∧
  ∃ s',
    run Json.parse two_clients
      [Disconnect "alice";
       RedisMessage noon "inventory" stock_text;
       ClientEmit "alice" "join-inventory-alerts";
       RedisMessage noon "inventory-alerts" counts_text] = inr s' ∧
    ¬ connected s' "alice" ∧
    received "alice" (trace s') = received "alice" (trace two_clients).
Proof.
  assert (Forall (λ i, connects "alice" i = false)
    [RedisMessage noon "inventory" stock_text;
     ClientEmit "alice" "join-inventory-alerts";
     RedisMessage noon "inventory-alerts" counts_text]) as Hinputs
    by (repeat constructor).
  split; [exact Hinputs|].
  exact (disconnected_socket_is_sent_nothing Json.parse two_clients "alice" _ Hinputs).
Defined.

Lemma room_request_touches_one_membership_witness :
  connected two_clients "alice" ∧
  ("leave-inventory-updates", "inventory-updates") ∈ join_requests ++ leave_requests ∧
  ∃ s', step Json.parse two_clients (ClientEmit "alice" "leave-inventory-updates") = inr s' ∧
        dom (sids s') = dom (sids two_clients) ∧
        (∀ id', id' ≠ "alice" → sids s' !! id' = sids two_clients !! id') ∧
        (∀ room', room' ≠ "inventory-updates" →
           in_room s' "alice" room' ↔ in_room two_clients "alice" room').
Proof.
  assert (connected two_clients "alice") as Hc by (apply connected_two_clients; by left).
  assert (("leave-inventory-updates", "inventory-updates") ∈
            join_requests ++ leave_requests) as Hev.
  { unfold join_requests, leave_requests. cbn. do 2 right. by left. }
  split; [exact Hc|]. split; [exact Hev|].
  exact (room_request_touches_one_membership Json.parse two_clients "alice" _ _ Hc Hev).
Defined.

Lemma join_and_leave_undo_each_other_witness :
  connected two_clients "bob" ∧
  ¬ in_room two_clients "bob" "inventory-alerts" ∧
  ∃ s', run Json.parse two_clients
          [ClientEmit "bob" "join-inventory-alerts";
           ClientEmit "bob" "leave-inventory-alerts"] = inr s' ∧
        sids s' = sids two_clients.
Proof.
  assert (connected two_clients "bob") as Hc
    by (apply connected_two_clients; right; by left).
  assert (¬ in_room two_clients "bob" "inventory-alerts") as Hout.
  { apply (bool_decide_eq_true_1 _). vm_compute. reflexivity. }
  split; [exact Hc|]. split; [exact Hout|].
  apply (join_and_leave_undo_each_other Json.parse two_clients "bob"
           "join-inventory-alerts" "leave-inventory-alerts" "inventory-alerts" Hc);
    [right; by left|right; by left|exact Hout].
Defined.

Lemma disconnect_discards_memberships_witness :
  connected two_clients "alice" ∧
  ∃ s1 s2,
    step Json.parse two_clients (Disconnect "alice") = inr s1 ∧
    ¬ connected s1 "alice" ∧
    (∀ room, ¬ in_room s1 "alice" room) ∧
    (∀ id', id' ≠ "alice" → sids s1 !! id' = sids two_clients !! id') ∧
    step Json.parse s1 (Connect "alice") = inr s2 ∧
    rooms_of s2 "alice" = {[ "alice" ]}.
Proof.
  assert (connected two_clients "alice") as Hc by (apply connected_two_clients; by left).
  split; [exact Hc|].
  exact (disconnect_discards_memberships Json.parse two_clients "alice" Hc).
Defined.

Lemma connect_then_disconnect_restores_rooms_witness :
  ¬ connected two_clients "carol" ∧
  ∃ s', run Json.parse two_clients [Connect "carol"; Disconnect "carol"] = inr s' ∧
        sids s' = sids two_clients.
Proof.
  assert (¬ connected two_clients "carol") as Hc.
  { apply (bool_decide_eq_true_1 _). vm_compute. reflexivity. }
  split; [exact Hc|].
  exact (connect_then_disconnect_restores_rooms Json.parse two_clients "carol" Hc).
Defined.

Lemma socket_outside_rooms_is_sent_one_of_each_witness :
  connected two_clients "bob" ∧
  ¬ in_room two_clients "bob" "inventory-updates" ∧
  ¬ in_room two_clients "bob" "inventory-alerts" ∧
  ∃ s' alert,
    run Json.parse two_clients
      [RedisMessage noon "inventory" stock_text;
       RedisMessage noon "inventory-alerts" counts_text] = inr s' ∧
    alertData noon (VObj counts) = inr alert ∧
    received "bob" (trace s') =
      received "bob" (trace two_clients) ++
      [("inventory-update", VObj stock); ("inventory-alert", alert)].
Proof.
  assert (connected two_clients "bob") as Hc
    by (apply connected_two_clients; right; by left).
  assert (¬ in_room two_clients "bob" "inventory-updates") as Hout1
    by (apply (bool_decide_eq_true_1 _); vm_compute; reflexivity).
  assert (¬ in_room two_clients "bob" "inventory-alerts") as Hout2
    by (apply (bool_decide_eq_true_1 _); vm_compute; reflexivity).
  split; [exact Hc|]. split; [exact Hout1|]. split; [exact Hout2|].
  apply (socket_outside_rooms_is_sent_one_of_each Json.parse two_clients "bob"
           noon stock_text (VObj stock) noon counts_text (VObj counts) Hc Hout1 Hout2);
    try discriminate; vm_compute; reflexivity.
Defined.

Lemma alert_emissions_carry_one_record_witness :
  Json.parse counts_text = inr (VObj counts) ∧
  VObj counts ≠ VNull ∧ VObj counts ≠ VUndefined ∧
  ∃ new record,
    on_message_timed Json.parse ticking "inventory-alerts" counts_text
      (Timed two_clients 7) =
      (inr (), Timed (Server (sids two_clients) (trace two_clients ++ new)) 8) ∧
    emissions new =
      [Emit Broadcast "inventory-alert" (VObj record) (dom (sids two_clients));
       Emit (ToRoom "inventory-alerts") "inventory-alert" (VObj record)
         (members "inventory-alerts" (sids two_clients))] ∧
    record !! "timestamp" = Some (VStr "t7") ∧
    received "alice" new =
      [("inventory-alert", VObj record); ("inventory-alert", VObj record)].
Proof.
  assert (Json.parse counts_text = inr (VObj counts)) as Hp by (vm_compute; reflexivity).
  split; [exact Hp|]. split; [discriminate|]. split; [discriminate|].
  destruct (alert_emissions_carry_one_record Json.parse ticking (Timed two_clients 7)
              counts_text (VObj counts) Hp)
    as (new & record & Hrun & Hemit & _ & _ & Hts & Hrecv);
    [discriminate|discriminate|].
  exists new, record. split; [exact Hrun|]. split; [exact Hemit|].
  split; [exact (Hts eq_refl)|].
  apply Hrecv.
  - apply connected_two_clients. by left.
  - apply (bool_decide_eq_true_1 _). vm_compute. reflexivity.
Defined.
